(** * Dialect.cpp: the context registry, its per-thread cache, the key
      allocator, the extension block and the operation-name predicates.

    A shallow embedding of [lib/Dialect/Dialect.cpp].  Pointers are
    addresses ([N], [nullptr] is [0]); [unsigned] values are [Z] with the
    32-bit wrap-around written out; [DenseMap] is a [gmap]; the objects
    that the code reaches through pointers (thread-local caches, keys,
    extension blocks) live in explicit stores indexed by their address.
    Code that can fail returns an [outcome]. *)

From Stdlib Require Import Ascii String.
From stdpp Require Import base option numbers list gmap strings.

Local Open Scope Z_scope.

(** ** Pointers, unsigned arithmetic, outcomes *)

Abbreviation addr := N (only parsing).
Definition nullptr : addr := 0%N.

Definition UINT_MAX : Z := 4294967295.

(** The value of an [unsigned] expression whose mathematical value is [z]. *)
Definition wrap32 (z : Z) : Z := z mod 4294967296.

(** How a piece of code ends: normally, by a failed [assert] or a fatal
    error ([Abort]), by undefined behaviour such as an access through a
    dangling or null pointer or outside an array ([Undefined]), or not at
    all ([Diverge]). *)
Inductive outcome (A : Type) : Type :=
  | Done (a : A)
  | Abort
  | Undefined
  | Diverge.
Arguments Done {A} a.
Arguments Abort {A}.
Arguments Undefined {A}.
Arguments Diverge {A}.

Global Instance outcome_ret : MRet outcome := λ A a, Done a.
Global Instance outcome_bind : MBind outcome := λ A B f m,
  match m with
  | Done a => f a
  | Abort => Abort
  | Undefined => Undefined
  | Diverge => Diverge
  end.

Global Instance outcome_fmap : FMap outcome := λ A B f m,
  match m with
  | Done a => Done (f a)
  | Abort => Abort
  | Undefined => Undefined
  | Diverge => Diverge
  end.

(** A read through a pointer into a store: the object must be there. *)
Definition deref {A} (o : option A) : outcome A :=
  match o with
  | Some a => Done a
  | None => Undefined
  end.

(** [assert(b)], in a build with assertions. *)
Definition assert (b : bool) : outcome unit :=
  if b then Done tt else Abort.

(** ** Operation-name predicates *)

Module OpName.

(** [llvm::Function], as far as this file looks at it: its name. *)
Record Function := mkFunction { getName : string }.

(** [llvm::CallInst]: [getCalledFunction] is null for an indirect call. *)
Record CallInst := mkCallInst { getCalledFunction : option Function }.

Definition isSimpleOperationDecl (fn : Function) (name : string) : bool :=
  String.eqb (getName fn) name.

Definition isOverloadedOperationDecl (fn : Function) (name : string) : bool :=
  let fnName := getName fn in
  if (String.length fnName <=? String.length name)%nat then false
  else if negb (String.prefix name fnName) then false
  else
    match String.get (String.length name) fnName with
    | Some c => Ascii.eqb c "."%char
    | None => false
    end.

Definition isSimpleOperation (i : CallInst) (name : string) : bool :=
  match getCalledFunction i with
  | Some fn => isSimpleOperationDecl fn name
  | None => false
  end.

Definition isOverloadedOperation (i : CallInst) (name : string) : bool :=
  match getCalledFunction i with
  | Some fn => isOverloadedOperationDecl fn name
  | None => false
  end.

End OpName.

(** ** The key allocator *)

Module Keys.

(** [Dialect::Key]: the slot index. *)
Record Key := mkKey { m_index : Z }.

(** [keys] is the static vector of [getRegisteredKeys]; [objs] holds the
    live [Key] objects by address. *)
Record KeyWorld := mkKeyWorld {
  keys : list addr;
  objs : gmap addr Key
}.

Definition no_keys : KeyWorld := {| keys := []; objs := ∅ |}.

(** The loop of the constructor: the first null entry of the vector
    receives [this]; the result is the vector and the entry's position. *)
Fixpoint scan (this : addr) (ks : list addr) (index : nat) : option (list addr * nat) :=
  match ks with
  | [] => None
  | value :: rest =>
      if decide (value = nullptr) then Some (this :: rest, index)
      else
        match scan this rest (S index) with
        | Some (rest', i) => Some (value :: rest', i)
        | None => None
        end
  end.

(** [SmallVector::push_back]: the size of a [SmallVector] of pointers is a
    32-bit number, and growing a vector that has [UINT_MAX] elements is a
    fatal error. *)
Definition push_back (ks : list addr) (k : addr) : outcome (list addr) :=
  if decide (Z.of_nat (length ks) < UINT_MAX) then Done (ks ++ [k]) else Abort.

(** [Dialect::Key::Key()] *)
Definition Key_ctor (this : addr) (w : KeyWorld) : outcome KeyWorld :=
  match scan this (keys w) 0 with
  | Some (ks, index) =>
      Done {| keys := ks;
              objs := <[this := {| m_index := wrap32 (Z.of_nat index) |}]> (objs w) |}
  | None =>
      let index := wrap32 (Z.of_nat (length (keys w))) in
      ks ← push_back (keys w) this;
      Done {| keys := ks; objs := <[this := {| m_index := index |}]> (objs w) |}
  end.

(** [Dialect::Key::~Key()] *)
Definition Key_dtor (this : addr) (w : KeyWorld) : outcome KeyWorld :=
  k ← deref (objs w !! this);
  let i := Z.to_nat (m_index k) in
  if decide (i < length (keys w))%nat then
    Done {| keys := <[i := nullptr]> (keys w);
            objs := <[this := {| m_index := UINT_MAX |}]> (objs w) |}
  else Undefined.

(** The end of a key's life: its destructor runs and its storage is gone. *)
Definition Key_destroy (this : addr) (w : KeyWorld) : outcome KeyWorld :=
  w' ← Key_dtor this w;
  Done {| keys := keys w'; objs := delete this (objs w') |}.

(** The slot of a live key. *)
Definition slot_of (w : KeyWorld) (k : addr) : option Z :=
  m_index <$> objs w !! k.

(** The states that key creations and destructions lead to.  A key is
    constructed at an address that holds no live key, and only a live key
    is destroyed. *)
Inductive key_reachable : KeyWorld → Prop :=
  | reach_initial : key_reachable no_keys
  | reach_ctor w this w' :
      key_reachable w → this ≠ nullptr → objs w !! this = None →
      Key_ctor this w = Done w' → key_reachable w'
  | reach_destroy w this w' :
      key_reachable w → is_Some (objs w !! this) →
      Key_destroy this w = Done w' → key_reachable w'.

(** The invariant of the allocator: the vector is no longer than a
    [SmallVector] can be, every live key is at its own index in the
    vector, and every entry of the vector that is not null is a live key
    with this index. *)
Record keys_ok (w : KeyWorld) : Prop := mkKeysOk {
  keys_bounded : Z.of_nat (length (keys w)) ≤ UINT_MAX;
  keys_back : ∀ k key, objs w !! k = Some key →
    k ≠ nullptr ∧ ∃ n : nat, m_index key = Z.of_nat n ∧ keys w !! n = Some k;
  keys_forth : ∀ (n : nat) k, keys w !! n = Some k → k ≠ nullptr →
    objs w !! k = Some {| m_index := Z.of_nat n |}
}.

End Keys.

(** ** The registry, the per-thread caches and the extension blocks *)

(** What a [CurrentContextCache **] points to: the registry's list head
    [ContextMap::m_caches], or the [m_next] field of the cache at [c]. *)
Inductive link :=
  | AtHead
  | AtNext (c : addr).

Module CurrentContextCache.
Record t := mk {
  m_llvmContext : addr;
  m_dialectContext : addr;
  m_pprev : link;
  m_next : addr
}.
End CurrentContextCache.

(** One element of a block's trailing array: storage that [malloc]
    returned and nothing wrote yet, or a [Dialect *]. *)
Inductive cell :=
  | Indeterminate
  | Value (p : addr).

Module DialectContext.
Record t := mk {
  m_llvmContext : addr;
  m_dialectArraySize : Z;
  dialectArray : list cell
}.
End DialectContext.

(** [DialectDescriptor]: a slot index and the factory of the slot's
    object; the factory is given the context and returns the new object. *)
Record DialectDescriptor := mkDescriptor {
  index : Z;
  make : addr → addr
}.

(** What the teardown of a block does, in the order in which it does it. *)
Inductive event :=
  | Unregistered (llvmContext dialectContext : addr)
  | Deleted (dialect : addr)
  | Freed (ctx : addr).

(** The state of the process: the singleton [ContextMap] ([m_map] and
    [m_caches]), the thread-local [cache] objects by address, the
    extension blocks by address, the live [Dialect] objects, and the log
    of teardown events.  Threads interleave at the level of whole calls:
    [insert], [remove], the constructor and the destructor of a cache and
    the slow path of [get] hold [m_mutex] throughout; the fast path of
    [get], which does not, is looked at in [get_load] and [get_rest]. *)
Record World := mkWorld {
  m_map : gmap addr addr;
  m_caches : addr;
  caches : gmap addr CurrentContextCache.t;
  blocks : gmap addr DialectContext.t;
  objects : gset addr;
  trace : list event
}.

Definition initial : World :=
  {| m_map := ∅; m_caches := nullptr; caches := ∅; blocks := ∅;
     objects := ∅; trace := [] |}.

Definition set_m_map (m : gmap addr addr) (w : World) : World :=
  {| m_map := m; m_caches := m_caches w; caches := caches w;
     blocks := blocks w; objects := objects w; trace := trace w |}.
Definition set_m_caches (p : addr) (w : World) : World :=
  {| m_map := m_map w; m_caches := p; caches := caches w;
     blocks := blocks w; objects := objects w; trace := trace w |}.
Definition set_caches (cs : gmap addr CurrentContextCache.t) (w : World) : World :=
  {| m_map := m_map w; m_caches := m_caches w; caches := cs;
     blocks := blocks w; objects := objects w; trace := trace w |}.
Definition set_blocks (bs : gmap addr DialectContext.t) (w : World) : World :=
  {| m_map := m_map w; m_caches := m_caches w; caches := caches w;
     blocks := bs; objects := objects w; trace := trace w |}.
Definition set_objects (ds : gset addr) (w : World) : World :=
  {| m_map := m_map w; m_caches := m_caches w; caches := caches w;
     blocks := blocks w; objects := ds; trace := trace w |}.
Definition log (e : event) (w : World) : World :=
  {| m_map := m_map w; m_caches := m_caches w; caches := caches w;
     blocks := blocks w; objects := objects w; trace := trace w ++ [e] |}.

(** [DenseMap::lookup]: the mapped value, or a null pointer for a key that
    is not in the map. *)
Definition DenseMap_lookup (m : gmap addr addr) (k : addr) : addr :=
  default nullptr (m !! k).

Definition with_context (llvmContext dialectContext : addr)
    (c : CurrentContextCache.t) : CurrentContextCache.t :=
  CurrentContextCache.mk llvmContext dialectContext
    (CurrentContextCache.m_pprev c) (CurrentContextCache.m_next c).
Definition with_llvmContext (llvmContext : addr)
    (c : CurrentContextCache.t) : CurrentContextCache.t :=
  with_context llvmContext (CurrentContextCache.m_dialectContext c) c.
Definition with_pprev (l : link) (c : CurrentContextCache.t) : CurrentContextCache.t :=
  CurrentContextCache.mk (CurrentContextCache.m_llvmContext c)
    (CurrentContextCache.m_dialectContext c) l (CurrentContextCache.m_next c).
Definition with_next (n : addr) (c : CurrentContextCache.t) : CurrentContextCache.t :=
  CurrentContextCache.mk (CurrentContextCache.m_llvmContext c)
    (CurrentContextCache.m_dialectContext c) (CurrentContextCache.m_pprev c) n.

(** [CurrentContextCache::CurrentContextCache()], for the cache at [this].
    The object is new, so it is not the old head of the list, and the
    order of the writes to the two objects does not matter. *)
Definition CurrentContextCache_ctor (this : addr) (w : World) : outcome World :=
  let next := m_caches w in
  cs ← (if decide (next = nullptr) then Done (caches w)
        else n ← deref (caches w !! next);
             Done (<[next := with_pprev (AtNext this) n]> (caches w)));
  Done (set_m_caches this
          (set_caches (<[this := CurrentContextCache.mk nullptr nullptr AtHead next]> cs) w)).

(** The store through [m_pprev]: [*l = p]. *)
Definition store_link (l : link) (p : addr) (w : World) : outcome World :=
  match l with
  | AtHead => Done (set_m_caches p w)
  | AtNext c =>
      pc ← deref (caches w !! c);
      Done (set_caches (<[c := with_next p pc]> (caches w)) w)
  end.

(** [CurrentContextCache::~CurrentContextCache()] *)
Definition CurrentContextCache_dtor (this : addr) (w : World) : outcome World :=
  c ← deref (caches w !! this);
  let next := CurrentContextCache.m_next c in
  cs ← (if decide (next = nullptr) then Done (caches w)
        else n ← deref (caches w !! next);
             Done (<[next := with_pprev (CurrentContextCache.m_pprev c) n]> (caches w)));
  store_link (CurrentContextCache.m_pprev c) next (set_caches cs w).

(** A thread that has a cache ends: the destructor of its [cache] runs and
    the thread-local storage is gone. *)
Definition thread_exit (this : addr) (w : World) : outcome World :=
  match caches w !! this with
  | None => Done w
  | Some _ =>
      w' ← CurrentContextCache_dtor this w;
      Done (set_caches (delete this (caches w')) w')
  end.

(** [CurrentContextCache::get], called by the thread whose [cache] object
    is at [this]; the object is constructed by the thread's first call. *)
Definition CurrentContextCache_get (this llvmContext : addr) (w : World)
    : outcome (addr * World) :=
  _ ← assert (bool_decide (llvmContext ≠ nullptr));
  w ← (match caches w !! this with
       | None => CurrentContextCache_ctor this w
       | Some _ => Done w
       end);
  cache ← deref (caches w !! this);
  if decide (CurrentContextCache.m_llvmContext cache ≠ llvmContext) then
    let cache' := with_context llvmContext (DenseMap_lookup (m_map w) llvmContext) cache in
    Done (CurrentContextCache.m_dialectContext cache',
          set_caches (<[this := cache']> (caches w)) w)
  else Done (CurrentContextCache.m_dialectContext cache, w).

(** [ContextMap::insert] *)
Definition ContextMap_insert (llvmContext dialectContext : addr) (w : World)
    : outcome World :=
  let inserted := bool_decide (m_map w !! llvmContext = None) in
  let w := if inserted then set_m_map (<[llvmContext := dialectContext]> (m_map w)) w
           else w in
  _ ← assert inserted;
  Done w.

(** The loop of [ContextMap::remove] from the cache at [cache] on.  A list
    inside a store of [fuel] objects that does not end after [fuel] steps
    has come back to an object it has visited and never ends. *)
Fixpoint scrub (fuel : nat) (llvmContext cache : addr)
    (cs : gmap addr CurrentContextCache.t) : outcome (gmap addr CurrentContextCache.t) :=
  if decide (cache = nullptr) then Done cs
  else
    match fuel with
    | O => Diverge
    | S fuel =>
        c ← deref (cs !! cache);
        let cs := if decide (CurrentContextCache.m_llvmContext c = llvmContext)
                  then <[cache := with_llvmContext nullptr c]> cs
                  else cs in
        scrub fuel llvmContext (CurrentContextCache.m_next c) cs
    end.

(** [ContextMap::remove] *)
Definition ContextMap_remove (llvmContext dialectContext : addr) (w : World)
    : outcome World :=
  _ ← assert (bool_decide (DenseMap_lookup (m_map w) llvmContext = dialectContext));
  let w := log (Unregistered llvmContext dialectContext)
             (set_m_map (delete llvmContext (m_map w)) w) in
  cs ← scrub (size (caches w)) llvmContext (m_caches w) (caches w);
  Done (set_caches cs w).

(** [DialectContext::DialectContext], for the block at [this], whose
    trailing array is the raw storage behind the header. *)
Definition DialectContext_ctor (this context : addr) (dialectArraySize : Z) (w : World)
    : outcome World :=
  let block := DialectContext.mk context dialectArraySize
                 (replicate (Z.to_nat dialectArraySize) Indeterminate) in
  ContextMap_insert context this (set_blocks (<[this := block]> (blocks w)) w).

(** [delete p] for a [Dialect *]. *)
Definition delete_Dialect (p : addr) (w : World) : World :=
  if decide (p = nullptr) then w
  else log (Deleted p) (set_objects (objects w ∖ {[p]}) w).

(** The loop of the destructor: [n] more elements from position [i] on. *)
Fixpoint delete_loop (n i : nat) (dialectArray : list cell) (w : World) : outcome World :=
  match n with
  | O => Done w
  | S n =>
      c ← deref (dialectArray !! i);
      match c with
      | Indeterminate => Undefined
      | Value p => delete_loop n (S i) dialectArray (delete_Dialect p w)
      end
  end.

(** [DialectContext::~DialectContext] *)
Definition DialectContext_dtor (this : addr) (w : World) : outcome World :=
  b ← deref (blocks w !! this);
  w ← ContextMap_remove (DialectContext.m_llvmContext b) this w;
  delete_loop (Z.to_nat (DialectContext.m_dialectArraySize b)) 0
    (DialectContext.dialectArray b) w.

(** [DialectContext::operator delete] *)
Definition operator_delete (ctx : addr) (w : World) : World :=
  log (Freed ctx) (set_blocks (delete ctx (blocks w)) w).

(** The deleter of the owning [unique_ptr]: [delete this]. *)
Definition destroy (this : addr) (w : World) : outcome World :=
  w ← DialectContext_dtor this w;
  Done (operator_delete this w).

(** The first loop of [make]. *)
Definition array_size (dialects : list DialectDescriptor) : Z :=
  fold_left (λ dialectArraySize desc, Z.max dialectArraySize (wrap32 (index desc + 1)))
    dialects 0.

(** The second loop of [make]: the objects are made and stored. *)
Fixpoint fill (context : addr) (dialects : list DialectDescriptor)
    (dialectArray : list cell) (live : gset addr) : outcome (list cell * gset addr) :=
  match dialects with
  | [] => Done (dialectArray, live)
  | desc :: rest =>
      let i := Z.to_nat (index desc) in
      let p := make desc context in
      if decide (0 ≤ index desc ∧ (i < length dialectArray)%nat) then
        fill context rest (<[i := Value p]> dialectArray)
          (if decide (p = nullptr) then live else {[p]} ∪ live)
      else Undefined
  end.

(** [DialectContext::make]; [ptr] is what [malloc] returns. *)
Definition DialectContext_make (context : addr) (dialects : list DialectDescriptor)
    (ptr : addr) (w : World) : outcome (addr * World) :=
  let dialectArraySize := array_size dialects in
  if decide (ptr = nullptr) then Undefined
  else
    w ← DialectContext_ctor ptr context dialectArraySize w;
    b ← deref (blocks w !! ptr);
    let dialectArray := replicate (Z.to_nat dialectArraySize) (Value nullptr) in
    '(dialectArray, live) ← fill context dialects dialectArray (objects w);
    let b := DialectContext.mk (DialectContext.m_llvmContext b)
               (DialectContext.m_dialectArraySize b) dialectArray in
    Done (ptr, set_objects live (set_blocks (<[ptr := b]> (blocks w)) w)).

(** [DialectContext::get], called by the thread whose cache is at [thread]:
    the result is dereferenced. *)
Definition DialectContext_get (thread context : addr) (w : World) : outcome (addr * World) :=
  r ← CurrentContextCache_get thread context w;
  if decide (r.1 = nullptr) then Undefined else Done r.

(** ** The operations of the interface, and the states they lead to *)

Inductive op :=
  | Make (context : addr) (dialects : list DialectDescriptor) (ptr : addr)
  | Destroy (this : addr)
  | Get (thread context : addr)
  | ThreadExit (thread : addr).

Definition exec (o : op) (w : World) : outcome World :=
  match o with
  | Make context dialects ptr => snd <$> DialectContext_make context dialects ptr w
  | Destroy this => destroy this w
  | Get thread context => snd <$> DialectContext_get thread context w
  | ThreadExit thread => thread_exit thread w
  end.

(** What the language and the allocator guarantee about the arguments: a
    reference is not null, [malloc] does not return storage that is in
    use, and a thread's [cache] object is not at the null address. *)
Definition admissible (o : op) (w : World) : Prop :=
  match o with
  | Make context dialects ptr => context ≠ nullptr ∧ blocks w !! ptr = None
  | Destroy this => True
  | Get thread context => thread ≠ nullptr
  | ThreadExit thread => True
  end.

Inductive reachable : World → Prop :=
  | reachable_initial : reachable initial
  | reachable_step w o w' :
      reachable w → admissible o w → exec o w = Done w' → reachable w'.

(** [run os w]: the operations [os] one after the other, from [w]. *)
Fixpoint run (os : list op) (w : World) : outcome World :=
  match os with
  | [] => Done w
  | o :: os => w' ← exec o w; run os w'
  end.

(** The cache list that starts at [p], reached through the link [prev],
    visits exactly the caches [l], in this order. *)
Fixpoint chain (cs : gmap addr CurrentContextCache.t) (prev : link) (p : addr)
    (l : list addr) : Prop :=
  match l with
  | [] => p = nullptr
  | a :: l =>
      p = a ∧ a ≠ nullptr ∧
      ∃ c, cs !! a = Some c ∧ CurrentContextCache.m_pprev c = prev ∧
           chain cs (AtNext a) (CurrentContextCache.m_next c) l
  end.

(** The list of the registry holds every thread-local cache once. *)
Definition cache_list_ok (w : World) : Prop :=
  ∃ l, NoDup l ∧ chain (caches w) AtHead (m_caches w) l ∧
       ∀ a, a ∈ l ↔ is_Some (caches w !! a).

(** A cache that holds a context holds the block that the registry has
    for this context. *)
Definition caches_coherent (w : World) : Prop :=
  ∀ a c, caches w !! a = Some c →
    CurrentContextCache.m_llvmContext c ≠ nullptr →
    m_map w !! CurrentContextCache.m_llvmContext c
      = Some (CurrentContextCache.m_dialectContext c).

(** The registry maps the context of every block to the block, and has
    nothing else. *)
Definition registry_ok (w : World) : Prop :=
  (∀ h b, m_map w !! h = Some b ↔
          ∃ blk, blocks w !! b = Some blk ∧ DialectContext.m_llvmContext blk = h) ∧
  m_map w !! nullptr = None ∧
  blocks w !! nullptr = None.

(** Every element of the array of every block has been written, and the
    array has the length that the header records. *)
Definition blocks_ok (w : World) : Prop :=
  ∀ b blk, blocks w !! b = Some blk →
    length (DialectContext.dialectArray blk)
      = Z.to_nat (DialectContext.m_dialectArraySize blk) ∧
    Forall (λ c, c ≠ Indeterminate) (DialectContext.dialectArray blk).

Record invariant (w : World) : Prop := mkInvariant {
  inv_list : cache_list_ok w;
  inv_coherent : caches_coherent w;
  inv_registry : registry_ok w;
  inv_blocks : blocks_ok w
}.

(** What [ContextMap::remove] leaves of a cache when [llvmContext] goes. *)
Definition scrubbed (llvmContext : addr) (c : CurrentContextCache.t)
    : CurrentContextCache.t :=
  if decide (CurrentContextCache.m_llvmContext c = llvmContext)
  then with_llvmContext nullptr c else c.

Global Instance link_eq_dec : EqDecision link.
Proof. solve_decision. Defined.

(** What [~CurrentContextCache] leaves of the store of a cache, for the
    cache with the fields [c]: the cache behind it is given its back
    link, and the cache before it is given its forward link. *)
Definition unlinked (c : CurrentContextCache.t)
    (cs : gmap addr CurrentContextCache.t) : gmap addr CurrentContextCache.t :=
  let next := CurrentContextCache.m_next c in
  let cs := if decide (next = nullptr) then cs
            else alter (with_pprev (CurrentContextCache.m_pprev c)) next cs in
  match CurrentContextCache.m_pprev c with
  | AtHead => cs
  | AtNext x => alter (with_next next) x cs
  end.

(** The world after [make]: the registry has the block for the context,
    the block has the array [arr], and [live] are the live objects. *)
Definition made (h p : addr) (size : Z) (arr : list cell) (live : gset addr) (w : World) : World :=
  {| m_map := <[h := p]> (m_map w); m_caches := m_caches w; caches := caches w;
     blocks := <[p := DialectContext.mk h size arr]> (blocks w);
     objects := live; trace := trace w |}.

(** The objects [ps] deleted one after the other. *)
Definition delete_all (ps : list addr) (w : World) : World :=
  foldl (λ w p, delete_Dialect p w) w ps.

(** The world after [~DialectContext] for the block of [h] at [this],
    whose array holds the pointers [ps]. *)
Definition torn_down (h this : addr) (ps : list addr) (w : World) : World :=
  delete_all ps
    (set_caches (scrubbed h <$> caches w)
       (log (Unregistered h this) (set_m_map (delete h (m_map w)) w))).

(** [steps w os w']: the operations [os], each admissible where it runs,
    lead from [w] to [w']. *)
Inductive steps : World → list op → World → Prop :=
  | steps_nil w : steps w [] w
  | steps_cons w o w' os w'' :
      admissible o w → exec o w = Done w' → steps w' os w'' →
      steps w (o :: os) w''.

(** The state after [os], for operations that all end normally. *)
Definition after (os : list op) (w : World) : World :=
  match run os w with
  | Done w' => w'
  | _ => w
  end.

(** A slot index that [make] can serve: [UINT_MAX] is the index of a key
    that has been destroyed. *)
Definition valid_index (d : DialectDescriptor) : Prop :=
  0 ≤ index d < UINT_MAX.

(** The size of a block as the specification has it: the largest slot
    index plus one, and zero for no descriptor. *)
Definition spec_block_size (dialects : list DialectDescriptor) : Z :=
  foldr (λ d size, Z.max (index d + 1) size) 0 dialects.

(** Example data: two descriptors for the slots 0 and 2, and a run in
    which two threads look the context 7 up. *)
Definition example_dialects : list DialectDescriptor :=
  [mkDescriptor 0 (λ _, 100%N); mkDescriptor 2 (λ _, 102%N)].
Definition example_ops : list op :=
  [Make 7%N example_dialects 50%N; Get 1%N 7%N; Get 2%N 7%N].

(** A descriptor for the slot [UINT_MAX]. *)
Definition wrapping_dialects : list DialectDescriptor :=
  [mkDescriptor 4294967295 (λ _, 100%N)].

(** [CurrentContextCache::get] in two parts, for a call that other
    threads interleave with.  The first part is the assertion, the
    thread's [cache] and the atomic load of the fast path; the result
    tells whether the cache holds the context. *)
Definition get_load (this llvmContext : addr) (w : World) : outcome (bool * World) :=
  _ ← assert (bool_decide (llvmContext ≠ nullptr));
  w ← (match caches w !! this with
       | None => CurrentContextCache_ctor this w
       | Some _ => Done w
       end);
  cache ← deref (caches w !! this);
  Done (bool_decide (CurrentContextCache.m_llvmContext cache = llvmContext), w).

(** The second part: the slow path under the mutex when the cache did
    not hold the context, and the read of [m_dialectContext]. *)
Definition get_rest (hit : bool) (this llvmContext : addr) (w : World)
    : outcome (addr * World) :=
  w ← (if hit then Done w
       else
         cache ← deref (caches w !! this);
         Done (set_caches
                 (<[this := with_context llvmContext
                              (DenseMap_lookup (m_map w) llvmContext) cache]>
                    (caches w)) w));
  cache ← deref (caches w !! this);
  Done (CurrentContextCache.m_dialectContext cache, w).


(** Example data: the allocator after the construction of three keys and
    the destruction of the second. *)
Definition example_keys : Keys.KeyWorld :=
  {| Keys.keys := [16%N; nullptr; 48%N];
     Keys.objs := <[48%N := Keys.mkKey 2]> (<[16%N := Keys.mkKey 0]> ∅) |}.

(** * Properties *)

(** ** Operation-name predicates *)

Section op_names.
Import OpName.

Lemma overloaded_shape (name fnName : string) :
  ((String.length name < String.length fnName)%nat ∧
   String.prefix name fnName = true ∧
   String.get (String.length name) fnName = Some "."%char)
  ↔ ∃ rest, fnName = (name ++ String "." rest)%string.
Proof.
  revert fnName. induction name as [|a name IH]; intros [|b fnName]; simpl.
  - split; [intros (? & _); lia | intros [rest ?]; discriminate].
  - split.
    + intros (_ & _ & [= ->]). by exists fnName.
    + intros [rest [= -> ->]]. repeat split; lia.
  - split; [intros (? & _); lia | intros [rest ?]; discriminate].
  - destruct (Ascii.ascii_dec a b) as [->|Hne].
    + rewrite <- Nat.succ_lt_mono. rewrite IH. split.
      * intros [rest ->]. by exists rest.
      * intros [rest [= ->]]. by exists rest.
    + split; [intros (_ & ? & _); discriminate | intros [rest [= ? _]]; congruence].
Qed.

Lemma overloaded_decl_unfold (fn : Function) (name : string) :
  isOverloadedOperationDecl fn name = true ↔
  (String.length name < String.length (getName fn))%nat ∧
  String.prefix name (getName fn) = true ∧
  String.get (String.length name) (getName fn) = Some "."%char.
Proof.
  unfold isOverloadedOperationDecl. simpl.
  destruct (Nat.leb_spec (String.length (getName fn)) (String.length name)) as [Hle|Hlt].
  { split; [discriminate | intros (? & _); lia]. }
  destruct (String.prefix name (getName fn)); simpl.
  2: { split; [discriminate | intros (_ & ? & _); discriminate]. }
  destruct (String.get _ _) as [c|].
  2: { split; [discriminate | intros (_ & _ & ?); discriminate]. }
  rewrite Ascii.eqb_eq. split.
  - intros ->. done.
  - intros (_ & _ & [= ->]). done.
Qed.

(** C8: [isSimpleOperationDecl] holds exactly of the function named like
    the base name; [isOverloadedOperationDecl] holds exactly of a function
    whose name is strictly longer than the base name, starts with it and
    has a dot right behind it, that is, whose name is the base name, a
    dot, and any rest. *)
Theorem name_classification (fn : Function) (name : string) :
  (isSimpleOperationDecl fn name = true ↔ getName fn = name) ∧
  (isOverloadedOperationDecl fn name = true ↔
     (String.length name < String.length (getName fn))%nat ∧
     String.substring 0 (String.length name) (getName fn) = name ∧
     String.get (String.length name) (getName fn) = Some "."%char) ∧
  (isOverloadedOperationDecl fn name = true ↔
     ∃ rest, getName fn = (name ++ String "." rest)%string).
Proof.
  split; [apply String.eqb_eq|]. split.
  - rewrite overloaded_decl_unfold, String.prefix_correct. done.
  - rewrite overloaded_decl_unfold. apply overloaded_shape.
Qed.

(** C10: for a call with no statically known callee, both predicates are
    false for every base name. *)
Theorem indirect_call_not_classified (i : CallInst) (name : string) :
  getCalledFunction i = None →
  isSimpleOperation i name = false ∧ isOverloadedOperation i name = false.
Proof.
  intros Hnone. unfold isSimpleOperation, isOverloadedOperation.
  by rewrite Hnone.
Qed.

Lemma indirect_call_not_classified_witness :
  isSimpleOperation (mkCallInst None) "xyz.op" = false ∧
  isOverloadedOperation (mkCallInst None) "xyz.op" = false.
Proof. apply (indirect_call_not_classified (mkCallInst None) "xyz.op"). reflexivity. Defined.

End op_names.

(** ** The key allocator *)

Lemma wrap32_small (z : Z) : 0 ≤ z ≤ UINT_MAX → wrap32 z = z.
Proof. unfold wrap32, UINT_MAX. intros ?. apply Z.mod_small. lia. Qed.

Section keys.
Import Keys.

Lemma scan_found (this : addr) (ks : list addr) (i0 n : nat) :
  ks !! n = Some nullptr →
  (∀ j, (j < n)%nat → ks !! j ≠ Some nullptr) →
  scan this ks i0 = Some (<[n := this]> ks, (i0 + n)%nat).
Proof.
  revert i0 n. induction ks as [|value rest IH]; intros i0 n Hn Hfirst; [done|].
  simpl. destruct n as [|n].
  - simpl in Hn. injection Hn as ->. rewrite decide_True by done.
    by rewrite Nat.add_0_r.
  - rewrite decide_False.
    2: { intros ->. by apply (Hfirst 0%nat); [lia|]. }
    rewrite (IH (S i0) n); [|done|].
    + simpl. do 2 f_equal. lia.
    + intros j Hj. apply (Hfirst (S j)). lia.
Qed.

Lemma scan_none (this : addr) (ks : list addr) (i0 : nat) :
  nullptr ∉ ks → scan this ks i0 = None.
Proof.
  revert i0. induction ks as [|value rest IH]; intros i0 Hnot; [done|].
  simpl. rewrite decide_False by (intros ->; apply Hnot; left).
  rewrite IH; [done|]. intros ?. apply Hnot. by right.
Qed.

Lemma Key_ctor_reuse (this : addr) (w : KeyWorld) (n : nat) :
  Z.of_nat (length (keys w)) ≤ UINT_MAX →
  keys w !! n = Some nullptr →
  (∀ j, (j < n)%nat → keys w !! j ≠ Some nullptr) →
  Key_ctor this w =
    Done {| keys := <[n := this]> (keys w);
            objs := <[this := {| m_index := Z.of_nat n |}]> (objs w) |}.
Proof.
  intros Hlen Hn Hfirst. unfold Key_ctor.
  rewrite (scan_found this _ 0 n Hn Hfirst). simpl.
  apply lookup_lt_Some in Hn. rewrite wrap32_small by lia. done.
Qed.

Lemma Key_ctor_append (this : addr) (w : KeyWorld) :
  nullptr ∉ keys w →
  Z.of_nat (length (keys w)) < UINT_MAX →
  Key_ctor this w =
    Done {| keys := keys w ++ [this];
            objs := <[this := {| m_index := Z.of_nat (length (keys w)) |}]> (objs w) |}.
Proof.
  intros Hnot Hlen. unfold Key_ctor, push_back. rewrite scan_none by done.
  rewrite decide_True by done. simpl. rewrite wrap32_small by lia. done.
Qed.

Lemma Key_ctor_full (this : addr) (w : KeyWorld) :
  nullptr ∉ keys w →
  Z.of_nat (length (keys w)) = UINT_MAX →
  Key_ctor this w = Abort.
Proof.
  intros Hnot Hlen. unfold Key_ctor, push_back. rewrite scan_none by done.
  rewrite decide_False by lia. done.
Qed.

(** Either some entry of the vector is null, and then there is a first
    one, or none is. *)
Lemma first_null (ks : list addr) :
  nullptr ∉ ks ∨
  ∃ n, ks !! n = Some nullptr ∧ ∀ j, (j < n)%nat → ks !! j ≠ Some nullptr.
Proof.
  induction ks as [|value rest IH]; [left; by intros ?%elem_of_nil|].
  destruct (decide (value = nullptr)) as [->|Hne].
  { right. exists 0%nat. split; [done|]. intros j ?. lia. }
  destruct IH as [Hnot|(n & Hn & Hfirst)].
  - left. intros [?|?]%elem_of_cons; congruence.
  - right. exists (S n). split; [done|]. intros [|j] Hj; simpl.
    + congruence.
    + apply Hfirst. lia.
Qed.

Lemma keys_ok_initial : keys_ok no_keys.
Proof. split; simpl; [unfold UINT_MAX; lia | done | done]. Qed.

Lemma keys_ok_insert (w : KeyWorld) (this : addr) (n : nat) (ks : list addr) :
  keys_ok w → this ≠ nullptr → objs w !! this = None →
  Z.of_nat (length ks) ≤ UINT_MAX →
  ks !! n = Some this →
  (∀ m, m ≠ n → ks !! m = keys w !! m ∨ (ks !! m = None)) →
  (∀ m k, keys w !! m = Some k → k ≠ nullptr → ks !! m = Some k) →
  keys_ok {| keys := ks; objs := <[this := {| m_index := Z.of_nat n |}]> (objs w) |}.
Proof.
  intros [Hb Hback Hforth] Hthis Hfresh Hlen Hn Hother Hkeep. split; simpl.
  - done.
  - intros k key [[-> <-]|[Hne Hk]]%lookup_insert_Some.
    + split; [done|]. by exists n.
    + destruct (Hback k key Hk) as (? & m & ? & Hm). split; [done|].
      exists m. split; [done|]. by apply Hkeep.
  - intros m k Hm Hk. destruct (decide (m = n)) as [->|Hmn].
    + rewrite Hn in Hm. injection Hm as <-. by rewrite lookup_insert_eq.
    + destruct (Hother m Hmn) as [Heq|Heq]; [|congruence].
      rewrite Heq in Hm. pose proof (Hforth m k Hm Hk) as Hobj.
      rewrite lookup_insert_ne; [done|]. congruence.
Qed.

Lemma keys_ok_ctor (w w' : KeyWorld) (this : addr) :
  keys_ok w → this ≠ nullptr → objs w !! this = None →
  Key_ctor this w = Done w' → keys_ok w'.
Proof.
  intros Hok Hthis Hfresh Hctor. pose proof (keys_bounded _ Hok) as Hb.
  destruct (first_null (keys w)) as [Hnot|(n & Hn & Hfirst)].
  - destruct (decide (Z.of_nat (length (keys w)) < UINT_MAX)) as [Hlt|Hge].
    2: { rewrite Key_ctor_full in Hctor; [done|done|lia]. }
    rewrite Key_ctor_append in Hctor by done. injection Hctor as <-.
    apply keys_ok_insert; try done.
    + rewrite length_app. simpl. lia.
    + rewrite lookup_app_r by lia. by rewrite Nat.sub_diag.
    + intros m Hm. destruct (decide (m < length (keys w))%nat).
      * left. by rewrite lookup_app_l.
      * right. apply lookup_ge_None. rewrite length_app. simpl. lia.
    + intros m k Hm _. rewrite lookup_app_l; [done|]. by eapply lookup_lt_Some.
  - rewrite (Key_ctor_reuse this w n) in Hctor by done. injection Hctor as <-.
    pose proof (lookup_lt_Some _ _ _ Hn) as Hlt.
    apply keys_ok_insert; try done.
    + by rewrite length_insert.
    + by rewrite list_lookup_insert_eq.
    + intros m Hm. left. by rewrite list_lookup_insert_ne.
    + intros m k Hm Hk. rewrite list_lookup_insert_ne; [done|]. congruence.
Qed.

Lemma Key_destroy_live (w : KeyWorld) (k : addr) (n : nat) :
  objs w !! k = Some {| m_index := Z.of_nat n |} →
  (n < length (keys w))%nat →
  Key_destroy k w =
    Done {| keys := <[n := nullptr]> (keys w); objs := delete k (objs w) |}.
Proof.
  intros Hk Hn. unfold Key_destroy, Key_dtor. rewrite Hk. simpl.
  rewrite Nat2Z.id. rewrite decide_True by done. simpl.
  by rewrite delete_insert_eq.
Qed.

Lemma keys_ok_destroy (w w' : KeyWorld) (this : addr) :
  keys_ok w → is_Some (objs w !! this) →
  Key_destroy this w = Done w' → keys_ok w'.
Proof.
  intros [Hb Hback Hforth] [[i] Hthis] Hdestroy.
  destruct (Hback _ _ Hthis) as (Hnn & n & Hi & Hn). simpl in Hi. subst i.
  pose proof (lookup_lt_Some _ _ _ Hn) as Hlt.
  rewrite (Key_destroy_live w this n) in Hdestroy by done.
  injection Hdestroy as <-. split; simpl.
  - by rewrite length_insert.
  - intros k key [Hne Hk]%lookup_delete_Some.
    destruct (Hback k key Hk) as (? & m & ? & Hm). split; [done|].
    exists m. split; [done|]. rewrite list_lookup_insert_ne; [done|]. congruence.
  - intros m k Hm Hk. destruct (decide (m = n)) as [->|Hmn].
    { rewrite list_lookup_insert_eq in Hm by done. congruence. }
    rewrite list_lookup_insert_ne in Hm by done.
    pose proof (Hforth m k Hm Hk) as Hobj.
    rewrite lookup_delete_ne; [done|]. intros <-.
    rewrite Hthis in Hobj. injection Hobj as ?. lia.
Qed.

Lemma key_reachable_ok (w : KeyWorld) : key_reachable w → keys_ok w.
Proof.
  induction 1 as [|w this w' _ IH Hthis Hfresh Hctor|w this w' _ IH Hlive Hdestroy].
  - apply keys_ok_initial.
  - by eapply keys_ok_ctor.
  - by eapply keys_ok_destroy.
Qed.

(** C5: the constructor of a key takes the first null entry of the vector
    of registered keys, and appends an entry only when no entry is null
    (which is a fatal error in a vector of [UINT_MAX] entries).  From the
    empty vector: the first key gets slot 0; after its destruction the
    next key gets slot 0 again, and a third key gets the new slot 1. *)
Theorem key_ctor_reuses_lowest_free_slot (w : KeyWorld) (this : addr) :
  Z.of_nat (length (keys w)) ≤ UINT_MAX →
  (∀ n : nat,
     keys w !! n = Some nullptr →
     (∀ j, (j < n)%nat → keys w !! j ≠ Some nullptr) →
     Key_ctor this w =
       Done {| keys := <[n := this]> (keys w);
               objs := <[this := {| m_index := Z.of_nat n |}]> (objs w) |}) ∧
  (nullptr ∉ keys w →
     Key_ctor this w =
       if decide (Z.of_nat (length (keys w)) < UINT_MAX) then
         Done {| keys := keys w ++ [this];
                 objs := <[this := {| m_index := Z.of_nat (length (keys w)) |}]> (objs w) |}
       else Abort) ∧
  (∀ k1 k2 k3 : addr,
     k1 ≠ nullptr → k2 ≠ nullptr → k3 ≠ nullptr → k2 ≠ k3 →
     ∃ w1 w2 w3 w4,
       Key_ctor k1 no_keys = Done w1 ∧ slot_of w1 k1 = Some 0 ∧
       Key_destroy k1 w1 = Done w2 ∧
       Key_ctor k2 w2 = Done w3 ∧ slot_of w3 k2 = Some 0 ∧
       Key_ctor k3 w3 = Done w4 ∧ slot_of w4 k3 = Some 1 ∧
       slot_of w4 k2 = Some 0 ∧ keys w4 = [k2; k3]).
Proof.
  intros Hlen. split; [|split].
  - intros n Hn Hfirst. by apply Key_ctor_reuse.
  - intros Hnot. case_decide.
    + by apply Key_ctor_append.
    + apply Key_ctor_full; [done|lia].
  - intros k1 k2 k3 Hk1 Hk2 Hk3 Hne. clear w this Hlen.
    eexists _, _, _, _. split.
    { apply Key_ctor_append; [by intros ?%elem_of_nil | done]. }
    split. { unfold slot_of. simpl. by rewrite lookup_insert_eq. }
    split.
    { apply (Key_destroy_live _ k1 0); simpl; [by rewrite lookup_insert_eq | lia]. }
    split.
    { apply (Key_ctor_reuse k2 _ 0); simpl; [done | done | intros; lia]. }
    split. { unfold slot_of. simpl. by rewrite lookup_insert_eq. }
    split.
    { apply Key_ctor_append; simpl; [|done].
      intros [?|?%elem_of_nil]%elem_of_cons; [congruence|done]. }
    split. { unfold slot_of. simpl. by rewrite lookup_insert_eq. }
    split; [|done].
    unfold slot_of. simpl. rewrite lookup_insert_ne by congruence.
    by rewrite lookup_insert_eq.
Qed.

Lemma key_ctor_reuses_lowest_free_slot_witness :
  Key_ctor 64%N {| keys := [16%N; nullptr; 48%N; nullptr]; objs := ∅ |} =
    Done {| keys := [16%N; 64%N; 48%N; nullptr];
            objs := <[64%N := {| m_index := 1 |}]> ∅ |}.
Proof.
  refine (proj1 (key_ctor_reuses_lowest_free_slot
            {| keys := [16%N; nullptr; 48%N; nullptr]; objs := ∅ |} 64%N _)
            1%nat _ _).
  - vm_compute. discriminate.
  - reflexivity.
  - intros [|j] Hj; [simpl; discriminate | lia].
Defined.

(** C9: in every state that key creations and destructions lead to, no
    two live keys have the same slot, the vector of registered keys has
    every live key at the key's slot, and the destruction of a live key
    sets the entry of its own slot to null and changes no other entry and
    no other key. *)
Theorem key_slots_distinct (w : KeyWorld) :
  key_reachable w →
  (∀ k1 k2 i, slot_of w k1 = Some i → slot_of w k2 = Some i → k1 = k2) ∧
  (∀ k i, slot_of w k = Some i →
     0 ≤ i ∧ k ≠ nullptr ∧ keys w !! Z.to_nat i = Some k) ∧
  (∀ k i, slot_of w k = Some i →
     ∃ w', Key_destroy k w = Done w' ∧
           keys w' = <[Z.to_nat i := nullptr]> (keys w) ∧
           keys w' !! Z.to_nat i = Some nullptr ∧
           (∀ j, j ≠ Z.to_nat i → keys w' !! j = keys w !! j) ∧
           slot_of w' k = None ∧
           (∀ k', k' ≠ k → slot_of w' k' = slot_of w k')).
Proof.
  intros [Hb Hback Hforth]%key_reachable_ok.
  assert (Hslot : ∀ k i, slot_of w k = Some i →
            ∃ n : nat, i = Z.of_nat n ∧ k ≠ nullptr ∧ keys w !! n = Some k ∧
                       objs w !! k = Some {| m_index := Z.of_nat n |}).
  { intros k i Hk. unfold slot_of in Hk.
    destruct (objs w !! k) as [[i']|] eqn:Hobj; [|done].
    simpl in Hk. injection Hk as ->.
    destruct (Hback _ _ Hobj) as (? & n & Hi & Hn). simpl in Hi. subst i.
    by exists n. }
  split; [|split].
  - intros k1 k2 i (n1 & -> & _ & H1 & _)%Hslot (n2 & Hn & _ & H2 & _)%Hslot.
    apply Nat2Z.inj in Hn. subst n2. congruence.
  - intros k i (n & -> & ? & Hn & _)%Hslot. rewrite Nat2Z.id.
    split; [lia|done].
  - intros k i (n & -> & ? & Hn & Hobj)%Hslot. rewrite Nat2Z.id.
    pose proof (lookup_lt_Some _ _ _ Hn) as Hlt.
    eexists. split; [by apply Key_destroy_live|]. simpl.
    split; [done|]. split; [by apply list_lookup_insert_eq|].
    split; [intros j Hj; by apply list_lookup_insert_ne|].
    unfold slot_of. simpl. split.
    + by rewrite lookup_delete_eq.
    + intros k' Hk'. by rewrite lookup_delete_ne.
Qed.

Lemma key_slots_distinct_witness :
  0 ≤ 1 ∧ 32%N ≠ nullptr ∧
  keys {| keys := [16%N; 32%N];
          objs := <[32%N := {| m_index := 1 |}]> (<[16%N := {| m_index := 0 |}]> ∅) |}
    !! Z.to_nat 1 = Some 32%N.
Proof.
  refine (proj1 (proj2 (key_slots_distinct
    {| keys := [16%N; 32%N];
       objs := <[32%N := {| m_index := 1 |}]> (<[16%N := {| m_index := 0 |}]> ∅) |} _))
    32%N 1 _).
  - eapply (reach_ctor {| keys := [16%N];
                          objs := <[16%N := {| m_index := 0 |}]> ∅ |} 32%N).
    + eapply (reach_ctor no_keys 16%N); [apply reach_initial|done|reflexivity|reflexivity].
    + done.
    + reflexivity.
    + reflexivity.
  - reflexivity.
Defined.

End keys.

(** ** The list of thread-local caches *)

Section cache_list.
Implicit Types (cs : gmap addr CurrentContextCache.t) (l : list addr).
Implicit Types (c : CurrentContextCache.t) (a p this : addr).

(** The list is a matter of the link fields alone. *)
Lemma chain_ext cs cs' prev p l :
  (∀ a c, a ∈ l → cs !! a = Some c →
     ∃ c', cs' !! a = Some c' ∧
           CurrentContextCache.m_pprev c' = CurrentContextCache.m_pprev c ∧
           CurrentContextCache.m_next c' = CurrentContextCache.m_next c) →
  chain cs prev p l → chain cs' prev p l.
Proof.
  revert prev p. induction l as [|a l IH]; intros prev p Hsame; [done|].
  simpl. intros (-> & Hnn & c & Ha & Hprev & Hrest).
  destruct (Hsame a c) as (c' & Ha' & Hp & Hn); [left|done|].
  split; [done|]. split; [done|]. exists c'. split; [done|].
  split; [congruence|]. rewrite Hn. apply IH; [|done].
  intros b cb Hb. apply Hsame. by right.
Qed.

Lemma chain_head cs prev p l : chain cs prev p l → p = hd nullptr l.
Proof. destruct l; simpl; [done|]. by intros (-> & _). Qed.

Lemma chain_live cs prev p l a : chain cs prev p l → a ∈ l → is_Some (cs !! a).
Proof.
  revert prev p. induction l as [|b l IH]; intros prev p; simpl.
  - by intros _ ?%elem_of_nil.
  - intros (_ & _ & c & Hb & _ & Hrest) [->|Ha]%elem_of_cons; [by exists c|].
    by eapply IH.
Qed.

Lemma chain_not_null cs prev p l : chain cs prev p l → nullptr ∉ l.
Proof.
  revert prev p. induction l as [|b l IH]; intros prev p; simpl.
  - by intros _ ?%elem_of_nil.
  - intros (_ & Hnn & c & _ & _ & Hrest) [?|Ha]%elem_of_cons; [done|].
    by eapply IH.
Qed.

Lemma chain_length cs prev p l :
  NoDup l → chain cs prev p l → (length l ≤ size cs)%nat.
Proof.
  intros Hnd Hchain.
  rewrite <- (size_list_to_set (C := gset addr) l Hnd), <- size_dom.
  apply subseteq_size. intros a Ha%elem_of_list_to_set.
  apply elem_of_dom. by eapply chain_live.
Qed.

(** The loop of [ContextMap::remove] over a well-formed list ends and
    scrubs exactly the caches of the list. *)
Lemma scrub_chain (h : addr) l : ∀ cs prev p fuel,
  NoDup l → chain cs prev p l → (length l ≤ fuel)%nat →
  ∃ cs', scrub fuel h p cs = Done cs' ∧
    ∀ a, cs' !! a = if decide (a ∈ l) then scrubbed h <$> cs !! a else cs !! a.
Proof.
  induction l as [|b l IH]; intros cs prev p fuel Hnd Hchain Hfuel.
  - simpl in Hchain. subst p. exists cs. split.
    + by destruct fuel.
    + intros a. rewrite decide_False; [done|]. by intros ?%elem_of_nil.
  - simpl in Hchain. destruct Hchain as (-> & Hnn & c & Hb & Hprev & Hrest).
    apply NoDup_cons in Hnd as [Hbl Hnd].
    destruct fuel as [|fuel]; [simpl in Hfuel; lia|]. simpl in Hfuel.
    simpl. rewrite decide_False by done. rewrite Hb. simpl.
    set (cs1 := if decide (CurrentContextCache.m_llvmContext c = h)
                then <[b := with_llvmContext nullptr c]> cs else cs).
    assert (Hcs1 : cs1 = <[b := scrubbed h c]> cs).
    { unfold cs1, scrubbed. case_decide; [done|]. by rewrite insert_id. }
    clearbody cs1. subst cs1.
    destruct (IH (<[b := scrubbed h c]> cs) (AtNext b)
                (CurrentContextCache.m_next c) fuel) as (cs' & Hrun & Hcs');
      [done| |lia|].
    { eapply chain_ext; [|done]. intros a ca Ha Hca.
      exists ca. rewrite lookup_insert_ne; [done|]. by intros <-. }
    exists cs'. split; [done|]. intros a. rewrite Hcs'.
    destruct (decide (a = b)) as [->|Hab].
    + rewrite decide_False by done. rewrite decide_True by left.
      by rewrite lookup_insert_eq, Hb.
    + rewrite lookup_insert_ne by done.
      destruct (decide (a ∈ l)).
      * by rewrite decide_True by by right.
      * rewrite decide_False; [done|]. by intros [?|?]%elem_of_cons.
Qed.

Lemma scrub_all (w : World) (h : addr) :
  cache_list_ok w →
  scrub (size (caches w)) h (m_caches w) (caches w) = Done (scrubbed h <$> caches w).
Proof.
  intros (l & Hnd & Hchain & Hall).
  destruct (scrub_chain h l (caches w) AtHead (m_caches w) (size (caches w)))
    as (cs' & -> & Hcs'); [done|done|by eapply chain_length|].
  f_equal. apply map_eq. intros a. rewrite Hcs', lookup_fmap.
  case_decide as Ha; [done|].
  destruct (caches w !! a) eqn:Hlive; [|done].
  exfalso. apply Ha, Hall. by eexists.
Qed.

(** [ContextMap::remove] in a state whose cache list is well formed. *)
Lemma ContextMap_remove_ok (w : World) (h d : addr) :
  cache_list_ok w →
  DenseMap_lookup (m_map w) h = d →
  ContextMap_remove h d w =
    Done (set_caches (scrubbed h <$> caches w)
            (log (Unregistered h d) (set_m_map (delete h (m_map w)) w))).
Proof.
  intros Hok Hd. unfold ContextMap_remove.
  rewrite bool_decide_eq_true_2 by done. simpl.
  change (caches (log _ (set_m_map _ w))) with (caches w).
  change (m_caches (log _ (set_m_map _ w))) with (m_caches w).
  by rewrite scrub_all.
Qed.

Lemma chain_at cs this l2 : ∀ l1 prev p,
  chain cs prev p (l1 ++ this :: l2) →
  ∃ c, cs !! this = Some c ∧
       CurrentContextCache.m_pprev c
         = match last l1 with Some x => AtNext x | None => prev end ∧
       chain cs (AtNext this) (CurrentContextCache.m_next c) l2.
Proof.
  induction l1 as [|a l1 IH]; intros prev p; simpl.
  - intros (_ & _ & c & ? & ? & ?). by exists c.
  - intros (_ & _ & ca & _ & _ & Hrest).
    destruct (IH _ _ Hrest) as (c & ? & Hp & ?). exists c.
    split; [done|]. split; [|done].
    change (last (a :: l1)) with (last ([a] ++ l1)). rewrite last_app.
    rewrite Hp. by destruct (last l1).
Qed.

Lemma lookup_unlinked c cs this b :
  delete this (unlinked c cs) !! b =
    if decide (b = this) then None
    else
      (if decide (CurrentContextCache.m_pprev c = AtNext b)
       then with_next (CurrentContextCache.m_next c) else id) <$>
      ((if decide (b = CurrentContextCache.m_next c ∧
                   CurrentContextCache.m_next c ≠ nullptr)
        then with_pprev (CurrentContextCache.m_pprev c) else id) <$> cs !! b).
Proof.
  rewrite lookup_delete. unfold unlinked.
  destruct (decide (this = b)) as [->|Hne].
  { by rewrite decide_True. }
  rewrite (decide_False (P := b = this)) by congruence.
  assert (Hinner : ∀ b, (if decide (CurrentContextCache.m_next c = nullptr) then cs
            else alter (with_pprev (CurrentContextCache.m_pprev c))
                   (CurrentContextCache.m_next c) cs) !! b
          = (if decide (b = CurrentContextCache.m_next c ∧
                        CurrentContextCache.m_next c ≠ nullptr)
             then with_pprev (CurrentContextCache.m_pprev c) else id) <$> cs !! b).
  { intros b'. destruct (decide (CurrentContextCache.m_next c = nullptr)) as [Hn|Hn].
    - rewrite decide_False by (intros [_ ?]; done). by rewrite option_fmap_id.
    - rewrite lookup_alter. destruct (decide (CurrentContextCache.m_next c = b')) as [<-|Hb].
      + by rewrite decide_True.
      + rewrite decide_False by (intros [? _]; done). by rewrite option_fmap_id. }
  destruct (CurrentContextCache.m_pprev c) as [|x] eqn:Hp.
  - rewrite (decide_False (P := AtHead = AtNext b)) by done.
    by rewrite option_fmap_id, Hinner.
  - rewrite lookup_alter, !Hinner. destruct (decide (x = b)) as [->|Hx].
    + by rewrite (decide_True (P := AtNext b = AtNext b)).
    + rewrite (decide_False (P := AtNext x = AtNext b)) by congruence.
      by rewrite option_fmap_id.
Qed.

Lemma chain_unlink c this l2 : ∀ l1 cs prev p,
  NoDup (l1 ++ this :: l2) →
  chain cs prev p (l1 ++ this :: l2) →
  cs !! this = Some c →
  (∀ x, prev = AtNext x → x ∉ l1 ++ this :: l2) →
  chain (delete this (unlinked c cs)) prev
    (match l1 with [] => CurrentContextCache.m_next c | _ => p end) (l1 ++ l2).
Proof.
  induction l1 as [|a l1 IH]; intros cs prev p Hnd Hchain Hthis Hprev.
  - simpl in *. destruct Hchain as (-> & Hnn & c' & Hc' & Hp & Hrest).
    assert (c' = c) as -> by congruence.
    apply NoDup_cons in Hnd as [Hnotin Hnd].
    destruct l2 as [|y l2]; [done|]. simpl in *.
    destruct Hrest as (Hy & Hynn & cy & Hcy & Hpy & Hrest).
    apply NoDup_cons in Hnd as [Hyl2 Hnd].
    assert (y ≠ this) by (intros ->; apply Hnotin; left).
    split; [done|]. split; [done|].
    exists (with_pprev prev cy). split.
    { rewrite lookup_unlinked, (decide_False (P := y = this)), Hcy by done.
      simpl. rewrite Hp, Hy.
      rewrite (decide_True (P := y = y ∧ y ≠ nullptr)) by done.
      rewrite (decide_False (P := prev = AtNext y)); [done|].
      intros ->. apply (Hprev y); [done|]. right. left. }
    split; [done|]. simpl.
    eapply chain_ext; [|done]. intros b cb Hb Hcb. exists cb.
    split; [|done]. rewrite lookup_unlinked, Hcb.
    rewrite (decide_False (P := b = this)) by (intros ->; apply Hnotin; by right).
    simpl. rewrite Hp, Hy.
    rewrite (decide_False (P := b = y ∧ y ≠ nullptr)) by (intros [-> _]; done).
    rewrite (decide_False (P := prev = AtNext b)); [done|].
    intros ->. apply (Hprev b); [done|]. right. by right.
  - simpl in Hnd, Hchain. destruct Hchain as (-> & Hnn & ca & Hca & Hp & Hrest).
    apply NoDup_cons in Hnd as [Hnotin Hnd].
    destruct (chain_at _ _ _ _ _ _ Hrest) as (c' & Hc' & Hpc & Hl2).
    assert (c' = c) as -> by congruence.
    assert (a ≠ this) by (intros ->; apply Hnotin, elem_of_app; right; left).
    assert (Hanext : ¬ (a = CurrentContextCache.m_next c ∧
                         CurrentContextCache.m_next c ≠ nullptr)).
    { intros [Ha Hn]. apply chain_head in Hl2. destruct l2 as [|y l2]; [done|].
      simpl in Hl2. apply Hnotin, elem_of_app. right. right.
      rewrite Ha, Hl2. left. }
    specialize (IH cs (AtNext a) (CurrentContextCache.m_next ca) Hnd Hrest Hthis).
    simpl. split; [done|]. split; [done|].
    destruct l1 as [|a' l1].
    + simpl in Hpc. exists (with_next (CurrentContextCache.m_next c) ca).
      split.
      { rewrite lookup_unlinked, (decide_False (P := a = this)), Hca by done.
        simpl. rewrite (decide_False (P := a = _ ∧ _)) by done.
        by rewrite (decide_True (P := _ = AtNext a)). }
      split; [done|]. simpl. apply IH. by intros x [= <-].
    + exists ca. split.
      { rewrite lookup_unlinked, (decide_False (P := a = this)), Hca by done.
        simpl. rewrite (decide_False (P := a = _ ∧ _)) by done.
        rewrite (decide_False (P := _ = AtNext a)); [done|].
        rewrite Hpc. destruct (last (a' :: l1)) as [x|] eqn:Hlast;
          [|by apply last_None in Hlast].
        intros [= ->]. apply Hnotin, elem_of_app. left.
        apply last_Some in Hlast as [l' ->]. apply elem_of_app. right. left. }
      split; [done|]. apply IH. by intros x [= <-].
Qed.

Lemma insert_as_alter cs a c (f : CurrentContextCache.t → CurrentContextCache.t) :
  cs !! a = Some c → <[a := f c]> cs = alter f a cs.
Proof.
  intros Ha. apply map_eq. intros b. rewrite lookup_alter, lookup_insert.
  case_decide; [|done]. by rewrite Ha.
Qed.

Lemma cache_list_null (w : World) : cache_list_ok w → caches w !! nullptr = None.
Proof.
  intros (l & _ & Hchain & Hall). apply eq_None_not_Some. intros Hl%Hall.
  by eapply chain_not_null.
Qed.

(** The constructor of the cache of a new thread puts the cache at the
    head of the list. *)
Lemma CurrentContextCache_ctor_ok (w : World) this :
  cache_list_ok w → this ≠ nullptr → caches w !! this = None →
  let cs := <[this := CurrentContextCache.mk nullptr nullptr AtHead (m_caches w)]>
              (alter (with_pprev (AtNext this)) (m_caches w) (caches w)) in
  CurrentContextCache_ctor this w = Done (set_m_caches this (set_caches cs w)) ∧
  cache_list_ok (set_m_caches this (set_caches cs w)).
Proof.
  intros Hok Hthis Hfresh cs. pose proof (cache_list_null w Hok) as Hnull.
  destruct Hok as (l & Hnd & Hchain & Hall).
  assert (Hnotin : this ∉ l).
  { intros Hin%Hall. rewrite Hfresh in Hin. by destruct Hin. }
  split.
  - unfold CurrentContextCache_ctor. subst cs.
    destruct (decide (m_caches w = nullptr)) as [Hhead|Hhead]; simpl.
    + rewrite Hhead. by rewrite alter_id'.
    + destruct l as [|a l]; simpl in Hchain; [done|].
      destruct Hchain as (Ha & _ & c & Hc & _). rewrite Ha, Hc. simpl.
      by rewrite (insert_as_alter _ _ _ (with_pprev (AtNext this)) Hc).
  - exists (this :: l). split; [by apply NoDup_cons|]. split.
    + simpl. split; [done|]. split; [done|]. eexists. split.
      { subst cs. apply lookup_insert_eq. }
      split; [done|]. simpl. subst cs.
      destruct l as [|a l]; [done|]. simpl in Hchain |- *.
      destruct Hchain as (Ha & Hann & c & Hc & Hp & Hrest).
      apply NoDup_cons in Hnd as [Hal Hnd].
      assert (a ≠ this) by (intros ->; apply Hnotin; left).
      split; [done|]. split; [done|]. exists (with_pprev (AtNext this) c).
      split.
      { rewrite lookup_insert_ne by done. by rewrite Ha, lookup_alter_eq, Hc. }
      split; [done|]. simpl. eapply chain_ext; [|done].
      intros b cb Hb Hcb. exists cb. split; [|done].
      rewrite lookup_insert_ne by (intros <-; apply Hnotin; by right).
      rewrite lookup_alter_ne; [done|]. rewrite Ha. by intros <-.
    + intros a. simpl. subst cs. rewrite lookup_insert_is_Some, elem_of_cons.
      rewrite lookup_alter_is_Some, <- Hall.
      destruct (decide (this = a)) as [->|]; [tauto|].
      split; [intros [?|?]; [congruence|tauto] | intros [?|[_ ?]]; [congruence|tauto]].
Qed.

(** The end of a thread takes its cache out of the list. *)
Lemma thread_exit_ok (w : World) this c :
  cache_list_ok w → caches w !! this = Some c →
  let head := match CurrentContextCache.m_pprev c with
              | AtHead => CurrentContextCache.m_next c
              | AtNext _ => m_caches w
              end in
  let w' := set_caches (delete this (unlinked c (caches w))) (set_m_caches head w) in
  thread_exit this w = Done w' ∧ cache_list_ok w'.
Proof.
  intros (l & Hnd & Hchain & Hall) Hthis head w'.
  assert (Hin : this ∈ l) by (apply Hall; by eexists).
  apply list_elem_of_split in Hin as (l1 & l2 & ->).
  destruct (chain_at _ _ _ _ _ _ Hchain) as (c' & Hc' & Hp & Hl2).
  assert (c' = c) as -> by congruence. clear Hc'.
  assert (Hnext : CurrentContextCache.m_next c ≠ nullptr →
            is_Some (caches w !! CurrentContextCache.m_next c)).
  { intros Hn. pose proof (chain_head _ _ _ _ Hl2) as Hhd.
    destruct l2 as [|y l2]; [done|]. simpl in Hhd. rewrite Hhd.
    apply Hall, elem_of_app. right. right. left. }
  split.
  - unfold thread_exit, CurrentContextCache_dtor. rewrite Hthis. simpl.
    subst w' head. unfold unlinked.
    destruct (decide (CurrentContextCache.m_next c = nullptr)) as [Hn|Hn]; simpl.
    + destruct (CurrentContextCache.m_pprev c) as [|x] eqn:Hpc; simpl; [done|].
      destruct (last l1) as [x'|] eqn:Hlast; [|done]. injection Hp as ->.
      assert (is_Some (caches w !! x')) as [cx Hcx].
      { apply Hall, elem_of_app. left. apply last_Some in Hlast as [? ->].
        apply elem_of_app. right. left. }
      rewrite Hcx. simpl.
      by rewrite (insert_as_alter _ _ _ (with_next _) Hcx).
    + destruct (Hnext Hn) as [cn Hcn]. rewrite Hcn. simpl.
      rewrite (insert_as_alter _ _ _ (with_pprev _) Hcn).
      destruct (CurrentContextCache.m_pprev c) as [|x] eqn:Hpc; simpl; [done|].
      destruct (last l1) as [x'|] eqn:Hlast; [|done]. injection Hp as ->.
      assert (is_Some (caches w !! x')) as [cx Hcx].
      { apply Hall, elem_of_app. left. apply last_Some in Hlast as [? ->].
        apply elem_of_app. right. left. }
      assert (is_Some (alter (with_pprev (AtNext x'))
                (CurrentContextCache.m_next c) (caches w) !! x')) as [cx' Hcx'].
      { rewrite lookup_alter_is_Some. by eexists. }
      rewrite Hcx'. simpl.
      by rewrite (insert_as_alter _ _ _ (with_next _) Hcx').
  - exists (l1 ++ l2). split.
    { apply NoDup_app in Hnd as (? & Hsep & [_ ?]%NoDup_cons).
      apply NoDup_app. split; [done|]. split; [|done].
      intros a Ha Ha2. apply (Hsep a Ha). by right. }
    split.
    + pose proof (chain_unlink c this l2 l1 (caches w) AtHead (m_caches w)
                    Hnd Hchain Hthis) as Hnew.
      subst w' head. simpl.
      destruct l1 as [|a l1].
      * simpl in Hp. rewrite Hp. apply Hnew. by intros x [=].
      * destruct (last (a :: l1)) as [x|] eqn:Hlast;
          [|by apply last_None in Hlast].
        rewrite Hp. apply Hnew. by intros ? [=].
    + intros a. subst w'. simpl. rewrite lookup_unlinked.
      apply NoDup_app in Hnd as (_ & Hsep & [Hthisl2 _]%NoDup_cons).
      case_decide as Ha.
      * subst a. split; [|by intros []].
        intros [?|?]%elem_of_app; [|done]. exfalso. apply (Hsep this); [done|left].
      * rewrite !fmap_is_Some, <- Hall, !elem_of_app, elem_of_cons. tauto.
Qed.

(** A change of the context fields of caches leaves the list as it is. *)
Lemma cache_list_ok_links (w w' : World) :
  cache_list_ok w →
  m_caches w' = m_caches w →
  (∀ a, match caches w !! a, caches w' !! a with
        | Some c, Some c' =>
            CurrentContextCache.m_pprev c' = CurrentContextCache.m_pprev c ∧
            CurrentContextCache.m_next c' = CurrentContextCache.m_next c
        | None, None => True
        | _, _ => False
        end) →
  cache_list_ok w'.
Proof.
  intros (l & Hnd & Hchain & Hall) Hhead Hsame. exists l.
  split; [done|]. split.
  - rewrite Hhead. eapply chain_ext; [|done]. intros a c _ Hc.
    specialize (Hsame a). rewrite Hc in Hsame.
    destruct (caches w' !! a) as [c'|]; [|done]. by exists c'.
  - intros a. rewrite Hall. specialize (Hsame a).
    destruct (caches w !! a), (caches w' !! a); try done;
      split; intros []; by eexists.
Qed.

Lemma cache_list_ok_scrubbed (w w' : World) (h : addr) :
  cache_list_ok w → m_caches w' = m_caches w →
  caches w' = scrubbed h <$> caches w → cache_list_ok w'.
Proof.
  intros Hok Hhead Hcs. apply (cache_list_ok_links w); [done|done|].
  intros a. rewrite Hcs, lookup_fmap. destruct (caches w !! a) as [c|]; [|done].
  simpl. unfold scrubbed. by case_decide.
Qed.

Lemma cache_list_ok_store (w w' : World) (a h d : addr) c :
  cache_list_ok w → m_caches w' = m_caches w →
  caches w !! a = Some c →
  caches w' = <[a := with_context h d c]> (caches w) → cache_list_ok w'.
Proof.
  intros Hok Hhead Hc Hcs. apply (cache_list_ok_links w); [done|done|].
  intros b. rewrite Hcs. destruct (decide (a = b)) as [<-|Hne].
  - by rewrite lookup_insert_eq, Hc.
  - rewrite lookup_insert_ne by done. by destruct (caches w !! b).
Qed.

Lemma scrub_no_abort (h : addr) (fuel : nat) : ∀ p cs, scrub fuel h p cs ≠ Abort.
Proof.
  induction fuel as [|fuel IH]; intros p cs; simpl;
    destruct (decide (p = nullptr)); try done.
  destruct (cs !! p) as [c|]; simpl; [apply IH|done].
Qed.

Lemma ContextMap_remove_abort (w : World) (h d : addr) :
  ContextMap_remove h d w = Abort ↔ DenseMap_lookup (m_map w) h ≠ d.
Proof.
  unfold ContextMap_remove. case_bool_decide as Hd; simpl; [|done].
  split; [|done]. intros Habort. exfalso.
  destruct (scrub _ _ _ _) eqn:Hs; try done.
  by apply scrub_no_abort in Hs.
Qed.

End cache_list.

(** ** The registry and the lookup through the caches *)

Section registry.
Implicit Types (w : World) (c : CurrentContextCache.t).

Lemma DenseMap_lookup_Some (m : gmap addr addr) (h b : addr) :
  m !! h = Some b → DenseMap_lookup m h = b.
Proof. unfold DenseMap_lookup. by intros ->. Qed.

Lemma DenseMap_lookup_not_null (m : gmap addr addr) (h : addr) :
  DenseMap_lookup m h ≠ nullptr → m !! h = Some (DenseMap_lookup m h).
Proof. unfold DenseMap_lookup. by destruct (m !! h). Qed.

Lemma registry_ok_same w w' :
  registry_ok w → m_map w' = m_map w → blocks w' = blocks w → registry_ok w'.
Proof. unfold registry_ok. by intros ? -> ->. Qed.

Lemma blocks_ok_same w w' : blocks_ok w → blocks w' = blocks w → blocks_ok w'.
Proof. unfold blocks_ok. by intros ? ->. Qed.

Lemma invariant_initial : invariant initial.
Proof.
  split.
  - exists []. split; [constructor|]. split; [done|]. intros a. simpl.
    rewrite lookup_empty. split; [by intros ?%elem_of_nil | by intros []].
  - intros a c. simpl. by rewrite lookup_empty.
  - split; [|done]. intros h b. simpl. rewrite lookup_empty.
    split; [done|]. intros (blk & Hblk & _). by rewrite lookup_empty in Hblk.
  - intros b blk. simpl. by rewrite lookup_empty.
Qed.

(** The first statement of [CurrentContextCache::get] after the assertion:
    the [cache] of the calling thread is there, made now if need be. *)
Lemma cache_ready w thread :
  invariant w → thread ≠ nullptr →
  ∃ w1 c,
    match caches w !! thread with
    | None => CurrentContextCache_ctor thread w
    | Some _ => Done w
    end = Done w1 ∧
    invariant w1 ∧
    caches w1 !! thread = Some c ∧
    (caches w !! thread = Some c ∧ w1 = w ∨
     caches w !! thread = None ∧ CurrentContextCache.m_llvmContext c = nullptr ∧
     CurrentContextCache.m_dialectContext c = nullptr) ∧
    m_map w1 = m_map w ∧ blocks w1 = blocks w ∧
    objects w1 = objects w ∧ trace w1 = trace w.
Proof.
  intros Hinv Hthread. destruct (caches w !! thread) as [c|] eqn:Hc.
  { exists w, c. do 3 (split; [done|]). split; [by left|]. done. }
  destruct Hinv as [Hlist Hcoh Hreg Hblk].
  destruct (CurrentContextCache_ctor_ok w thread Hlist Hthread Hc) as [Hrun Hlist'].
  eexists _, _. split; [exact Hrun|]. split.
  - split; [done| |by apply (registry_ok_same w)|by apply (blocks_ok_same w)].
    intros a c'. simpl. intros [[<- <-]|[Hne Ha]]%lookup_insert_Some; [done|].
    rewrite lookup_alter in Ha. case_decide.
    + apply fmap_Some in Ha as (c0 & Hc0 & ->). subst a. simpl.
      by apply (Hcoh (m_caches w)).
    + by apply (Hcoh a).
  - split; [simpl; apply lookup_insert_eq|]. split; [by right|]. done.
Qed.

(** The lookup through the cache of a thread returns what the registry
    has for the context, and leaves the context and this block in the
    cache; when the cache holds the context already, nothing changes. *)
Lemma CurrentContextCache_get_ok w thread h :
  invariant w → thread ≠ nullptr → h ≠ nullptr →
  ∃ w' c',
    CurrentContextCache_get thread h w = Done (DenseMap_lookup (m_map w) h, w') ∧
    caches w' !! thread = Some c' ∧
    CurrentContextCache.m_llvmContext c' = h ∧
    CurrentContextCache.m_dialectContext c' = DenseMap_lookup (m_map w) h ∧
    (∀ c, caches w !! thread = Some c →
          CurrentContextCache.m_llvmContext c = h → w' = w) ∧
    m_map w' = m_map w ∧ blocks w' = blocks w ∧
    objects w' = objects w ∧ trace w' = trace w ∧
    (DenseMap_lookup (m_map w) h ≠ nullptr → invariant w').
Proof.
  intros Hinv Hthread Hh.
  destruct (cache_ready w thread Hinv Hthread)
    as (w1 & c & Hrun & Hinv1 & Hc & Hwas & Hm & Hb & Ho & Ht).
  unfold CurrentContextCache_get. rewrite bool_decide_eq_true_2 by done.
  simpl. rewrite Hrun. simpl. rewrite Hc. simpl. rewrite <- Hm.
  destruct (decide (CurrentContextCache.m_llvmContext c ≠ h)) as [Hmiss|Hhit].
  - eexists _, _. split; [done|]. simpl.
    split; [apply lookup_insert_eq|]. split; [done|]. split; [done|].
    split.
    { intros c0 Hc0 Hh0. destruct Hwas as [[Hc1 ->]|[Hc1 _]]; congruence. }
    repeat (split; [done|]). intros Hfound.
    destruct Hinv1 as [Hlist Hcoh Hreg Hblk].
    split; [|  |by apply (registry_ok_same w1)|by apply (blocks_ok_same w1)].
    + by eapply (cache_list_ok_store w1 _ thread).
    + intros a ca. simpl. intros [[<- <-]|[Hne Ha]]%lookup_insert_Some.
      * simpl. intros _. by apply DenseMap_lookup_not_null.
      * by apply (Hcoh a).
  - apply dec_stable in Hhit.
    assert (Hd : CurrentContextCache.m_dialectContext c = DenseMap_lookup (m_map w1) h).
    { symmetry. apply DenseMap_lookup_Some. rewrite <- Hhit.
      apply (inv_coherent _ Hinv1 thread c Hc). congruence. }
    exists w1, c. rewrite Hd. repeat (split; [done|]).
    split.
    { intros c0 Hc0 _. destruct Hwas as [[_ ->]|[Hc1 _]]; congruence. }
    done.
Qed.

Lemma DialectContext_get_ok w thread h b :
  invariant w → thread ≠ nullptr → m_map w !! h = Some b →
  ∃ w' c',
    DialectContext_get thread h w = Done (b, w') ∧
    caches w' !! thread = Some c' ∧
    CurrentContextCache.m_llvmContext c' = h ∧
    CurrentContextCache.m_dialectContext c' = b ∧
    (∀ c, caches w !! thread = Some c →
          CurrentContextCache.m_llvmContext c = h → w' = w) ∧
    m_map w' = m_map w ∧ blocks w' = blocks w ∧
    objects w' = objects w ∧ trace w' = trace w ∧
    invariant w'.
Proof.
  intros Hinv Hthread Hb.
  pose proof (inv_registry _ Hinv) as (Hreg & Hnull & Hbnull).
  assert (h ≠ nullptr) by (intros ->; congruence).
  assert (b ≠ nullptr).
  { intros ->. apply Hreg in Hb as (blk & ? & _). congruence. }
  destruct (CurrentContextCache_get_ok w thread h Hinv Hthread)
    as (w' & c' & Hrun & Hc' & Hh' & Hd' & Hfast & ? & ? & ? & ? & Hinv');
    [done|].
  rewrite (DenseMap_lookup_Some _ _ _ Hb) in *.
  exists w', c'. unfold DialectContext_get. rewrite Hrun. simpl.
  rewrite decide_False by done. repeat (split; [done|]). by apply Hinv'.
Qed.

Lemma ContextMap_insert_absent w h d :
  m_map w !! h = None →
  ContextMap_insert h d w = Done (set_m_map (<[h := d]> (m_map w)) w).
Proof. intros Hh. unfold ContextMap_insert. by rewrite bool_decide_eq_true_2. Qed.

Lemma ContextMap_insert_present w h d :
  is_Some (m_map w !! h) → ContextMap_insert h d w = Abort.
Proof.
  intros [b Hb]. unfold ContextMap_insert.
  rewrite bool_decide_eq_false_2; [done|]. congruence.
Qed.

Lemma DialectContext_make_unfold w h ds p :
  p ≠ nullptr → m_map w !! h = None →
  DialectContext_make h ds p w =
    r ← fill h ds (replicate (Z.to_nat (array_size ds)) (Value nullptr)) (objects w);
    Done (p, made h p (array_size ds) r.1 r.2 w).
Proof.
  intros Hp Hh. unfold DialectContext_make, DialectContext_ctor.
  rewrite decide_False by done. rewrite ContextMap_insert_absent by done.
  simpl. rewrite lookup_insert_eq. simpl.
  destruct (fill _ _ _ _) as [[arr live]| | |]; simpl; [|done..].
  unfold made, set_objects, set_blocks. simpl. by rewrite insert_insert_eq.
Qed.

Lemma DialectContext_make_present w h ds p :
  p ≠ nullptr → is_Some (m_map w !! h) → DialectContext_make h ds p w = Abort.
Proof.
  intros Hp Hh. unfold DialectContext_make, DialectContext_ctor.
  rewrite decide_False by done. by rewrite ContextMap_insert_present.
Qed.

Lemma DialectContext_make_Done w h ds p r w' :
  DialectContext_make h ds p w = Done (r, w') →
  r = p ∧ p ≠ nullptr ∧ m_map w !! h = None ∧
  ∃ arr live,
    fill h ds (replicate (Z.to_nat (array_size ds)) (Value nullptr)) (objects w)
      = Done (arr, live) ∧
    w' = made h p (array_size ds) arr live w.
Proof.
  intros Hrun. destruct (decide (p = nullptr)) as [->|Hp].
  { unfold DialectContext_make in Hrun. by rewrite decide_True in Hrun. }
  destruct (m_map w !! h) as [b|] eqn:Hh.
  { rewrite DialectContext_make_present in Hrun; [done|done|by eexists]. }
  rewrite DialectContext_make_unfold in Hrun by done.
  destruct (fill _ _ _ _) as [[arr live]| | |]; simpl in Hrun; [|done..].
  injection Hrun as <- <-. repeat (split; [done|]). by exists arr, live.
Qed.

Lemma fill_Done h ds : ∀ arr live arr' live',
  fill h ds arr live = Done (arr', live') →
  length arr' = length arr ∧
  (Forall (λ x, x ≠ Indeterminate) arr → Forall (λ x, x ≠ Indeterminate) arr').
Proof.
  induction ds as [|d ds IH]; intros arr live arr' live'; simpl.
  - intros [= <- <-]. done.
  - case_decide as Hd; [|done]. intros [Hlen Hwr]%IH.
    rewrite length_insert in Hlen. split; [done|].
    intros Harr. apply Hwr. apply Forall_insert; [done|done].
Qed.

Lemma invariant_made w h ds p arr live :
  invariant w → h ≠ nullptr → p ≠ nullptr →
  blocks w !! p = None → m_map w !! h = None →
  fill h ds (replicate (Z.to_nat (array_size ds)) (Value nullptr)) (objects w)
    = Done (arr, live) →
  invariant (made h p (array_size ds) arr live w).
Proof.
  intros [Hlist Hcoh (Hreg & Hnull & Hbnull) Hblk] Hh Hp Hfresh Habsent Hfill.
  split.
  - done.
  - intros a c Hc Hhc. simpl. pose proof (Hcoh a c Hc Hhc) as Hd.
    rewrite lookup_insert_ne; [done|]. congruence.
  - split; [|split]; simpl.
    + intros h' b. rewrite lookup_insert_Some. split.
      * intros [[<- <-]|[Hne Hb]].
        { eexists. by rewrite lookup_insert_eq. }
        apply Hreg in Hb as (blk & Hb & Hctx). exists blk.
        rewrite lookup_insert_ne; [done|]. congruence.
      * intros (blk & [[<- <-]|[Hne Hb]]%lookup_insert_Some & Hctx).
        { by left. }
        right. assert (m_map w !! h' = Some b) by (apply Hreg; by exists blk).
        split; [congruence|done].
    + by rewrite lookup_insert_ne.
    + by rewrite lookup_insert_ne.
  - intros b blk. simpl. intros [[<- <-]|[Hne Hb]]%lookup_insert_Some.
    + simpl. apply fill_Done in Hfill as [Hlen Hwr].
      rewrite Hlen, length_replicate. split; [done|].
      apply Hwr, Forall_replicate. done.
    + by apply (Hblk b).
Qed.

Lemma written_cells (arr : list cell) :
  Forall (λ x, x ≠ Indeterminate) arr → ∃ ps, arr = Value <$> ps.
Proof.
  induction 1 as [|x arr Hx _ [ps ->]]; [by exists []|].
  destruct x as [|p]; [done|]. by exists (p :: ps).
Qed.

Lemma delete_loop_ok (ps2 : list addr) : ∀ ps1 w,
  delete_loop (length ps2) (length ps1) (Value <$> (ps1 ++ ps2)) w
    = Done (delete_all ps2 w).
Proof.
  induction ps2 as [|p ps2 IH]; intros ps1 w; [done|]. simpl.
  rewrite list_lookup_fmap, lookup_app_r, Nat.sub_diag by lia. simpl.
  specialize (IH (ps1 ++ [p]) (delete_Dialect p w)).
  rewrite length_app, Nat.add_1_r, <- app_assoc in IH. done.
Qed.

Lemma delete_all_fields (ps : list addr) : ∀ w,
  m_map (delete_all ps w) = m_map w ∧
  m_caches (delete_all ps w) = m_caches w ∧
  caches (delete_all ps w) = caches w ∧
  blocks (delete_all ps w) = blocks w ∧
  trace (delete_all ps w) = trace w ++ (Deleted <$> filter (λ p, p ≠ nullptr) ps) ∧
  (∀ p, p ∈ objects (delete_all ps w) ↔ p ∈ objects w ∧ (p = nullptr ∨ p ∉ ps)).
Proof.
  induction ps as [|q ps IH]; intros w.
  - simpl. rewrite app_nil_r. repeat (split; [done|]).
    intros p. split; [|tauto]. intros ?. split; [done|]. right. by intros ?%elem_of_nil.
  - change (delete_all (q :: ps) w) with (delete_all ps (delete_Dialect q w)).
    rewrite filter_cons. destruct (decide (q = nullptr)) as [->|Hq].
    + rewrite decide_False by (intros ?; done).
      change (delete_Dialect nullptr w) with w.
      destruct (IH w) as (-> & -> & -> & -> & -> & Hobj).
      repeat (split; [done|]).
      intros p. rewrite Hobj, elem_of_cons.
      destruct (decide (p = nullptr)); tauto.
    + rewrite decide_True by done.
      assert (delete_Dialect q w
              = log (Deleted q) (set_objects (objects w ∖ {[q]}) w)) as ->.
      { unfold delete_Dialect. by rewrite decide_False. }
      destruct (IH (log (Deleted q) (set_objects (objects w ∖ {[q]}) w)))
        as (-> & -> & -> & -> & -> & Hobj).
      simpl. rewrite <- app_assoc. repeat (split; [done|]).
      intros p. rewrite Hobj. simpl.
      rewrite elem_of_difference, elem_of_singleton, elem_of_cons.
      destruct (decide (p = q)) as [->|]; tauto.
Qed.

(** [~DialectContext] on a live block: the registry entry goes, then the
    objects of the array are deleted. *)
Lemma DialectContext_dtor_ok w this blk :
  invariant w → blocks w !! this = Some blk →
  ∃ ps, DialectContext.dialectArray blk = Value <$> ps ∧
        DialectContext_dtor this w
          = Done (torn_down (DialectContext.m_llvmContext blk) this ps w).
Proof.
  intros [Hlist Hcoh (Hreg & _) Hblk] Hthis.
  destruct (Hblk _ _ Hthis) as [Hlen Hwr].
  destruct (written_cells _ Hwr) as [ps Hps]. exists ps. split; [done|].
  unfold DialectContext_dtor. rewrite Hthis. simpl.
  rewrite (ContextMap_remove_ok w _ this Hlist).
  2: { apply DenseMap_lookup_Some, Hreg. by exists blk. }
  simpl. rewrite <- Hlen, Hps, length_fmap.
  apply (delete_loop_ok ps []).
Qed.

Lemma invariant_destroyed w this blk ps :
  invariant w → blocks w !! this = Some blk →
  invariant (operator_delete this
               (torn_down (DialectContext.m_llvmContext blk) this ps w)).
Proof.
  intros [Hlist Hcoh (Hreg & Hnull & Hbnull) Hblk] Hthis.
  set (h := DialectContext.m_llvmContext blk).
  destruct (delete_all_fields ps
    (set_caches (scrubbed h <$> caches w)
       (log (Unregistered h this) (set_m_map (delete h (m_map w)) w))))
    as (Hm & Hhead & Hcs & Hbs & _).
  assert (Hmh : m_map w !! h = Some this) by (apply Hreg; by exists blk).
  split.
  - by apply (cache_list_ok_scrubbed w _ h).
  - intros a c'. unfold operator_delete, torn_down. simpl. fold h.
    rewrite Hm, Hcs. simpl. rewrite lookup_fmap.
    intros (c & Hc & ->)%fmap_Some. unfold scrubbed.
    case_decide as Hch; [done|]. intros Hnn.
    rewrite lookup_delete_ne by congruence. by apply (Hcoh a).
  - unfold registry_ok, operator_delete, torn_down. simpl. fold h.
    rewrite Hm, Hbs. simpl. split; [|split].
    + intros h' b. rewrite lookup_delete_Some. split.
      * intros [Hne (blk' & Hb & Hctx)%Hreg]. exists blk'. split; [|done].
        rewrite lookup_delete_ne; [done|]. intros <-.
        assert (blk' = blk) by congruence. subst blk'. done.
      * intros (blk' & [Hne Hb]%lookup_delete_Some & Hctx).
        assert (m_map w !! h' = Some b) by (apply Hreg; by exists blk').
        split; [|done]. intros <-. congruence.
    + rewrite lookup_delete_None. by right.
    + rewrite lookup_delete_None. by right.
  - intros b blk'. unfold operator_delete, torn_down. simpl. fold h.
    rewrite Hbs. simpl. intros [_ Hb]%lookup_delete_Some. by apply (Hblk b).
Qed.

Lemma invariant_thread_exit w this w' :
  invariant w → thread_exit this w = Done w' → invariant w'.
Proof.
  intros Hinv Hrun. destruct (caches w !! this) as [c|] eqn:Hc.
  2: { unfold thread_exit in Hrun. rewrite Hc in Hrun. by injection Hrun as <-. }
  destruct Hinv as [Hlist Hcoh Hreg Hblk].
  destruct (thread_exit_ok w this c Hlist Hc) as [Hrun' Hlist'].
  rewrite Hrun' in Hrun. injection Hrun as <-.
  split; [done| |by eapply registry_ok_same|by eapply blocks_ok_same].
  intros a ca. simpl. rewrite lookup_unlinked. case_decide; [done|].
  intros (c1 & (c0 & Hc0 & ->)%fmap_Some & ->)%fmap_Some.
  pose proof (Hcoh a c0 Hc0) as Hd. by repeat case_decide.
Qed.

Lemma invariant_step w o w' :
  invariant w → admissible o w → exec o w = Done w' → invariant w'.
Proof.
  intros Hinv Hadm Hrun. destruct o as [h ds p|this|thread h|thread]; simpl in *.
  - destruct (DialectContext_make h ds p w) as [[r w'']| | |] eqn:Hmake;
      simpl in Hrun; [|done..]. injection Hrun as ->.
    apply DialectContext_make_Done in Hmake
      as (_ & Hp & Habsent & arr & live & Hfill & ->).
    destruct Hadm as [Hh Hfresh]. by eapply invariant_made.
  - unfold destroy in Hrun.
    destruct (blocks w !! this) as [blk|] eqn:Hthis.
    2: { unfold DialectContext_dtor in Hrun. by rewrite Hthis in Hrun. }
    destruct (DialectContext_dtor_ok w this blk Hinv Hthis) as (ps & _ & Hdtor).
    rewrite Hdtor in Hrun. simpl in Hrun. injection Hrun as <-.
    by apply invariant_destroyed.
  - destruct (DialectContext_get thread h w) as [[r w'']| | |] eqn:Hget;
      simpl in Hrun; [|done..]. injection Hrun as ->.
    unfold DialectContext_get in Hget.
    destruct (decide (h = nullptr)) as [->|Hh].
    { unfold CurrentContextCache_get in Hget.
      by rewrite bool_decide_eq_false_2 in Hget by (intros ?; done). }
    destruct (CurrentContextCache_get_ok w thread h Hinv Hadm Hh)
      as (w1 & c' & Hrun & _ & _ & _ & _ & _ & _ & _ & _ & Hinv').
    rewrite Hrun in Hget. simpl in Hget. case_decide as Hr; [done|].
    injection Hget as _ <-. by apply Hinv'.
  - by eapply invariant_thread_exit.
Qed.

(** Every state that the operations lead to satisfies the invariant. *)
Lemma reachable_invariant w : reachable w → invariant w.
Proof.
  induction 1 as [|w o w' _ IH Hadm Hrun]; [apply invariant_initial|].
  by eapply invariant_step.
Qed.

Lemma steps_reachable w os w' : reachable w → steps w os w' → reachable w'.
Proof.
  intros Hw Hsteps. induction Hsteps as [|w o w' os w'' Hadm Hrun _ IH]; [done|].
  apply IH. by eapply reachable_step.
Qed.

(** What an operation does to the registry. *)
Lemma exec_m_map w o w' :
  invariant w → admissible o w → exec o w = Done w' →
  m_map w' =
    match o with
    | Make h _ p => <[h := p]> (m_map w)
    | Destroy this =>
        match blocks w !! this with
        | Some blk => delete (DialectContext.m_llvmContext blk) (m_map w)
        | None => m_map w
        end
    | _ => m_map w
    end.
Proof.
  intros Hinv Hadm Hrun. destruct o as [h ds p|this|thread h|thread]; simpl in *.
  - destruct (DialectContext_make h ds p w) as [[r w'']| | |] eqn:Hmake;
      simpl in Hrun; [|done..]. injection Hrun as ->.
    by apply DialectContext_make_Done in Hmake as (_ & _ & _ & arr & live & _ & ->).
  - unfold destroy in Hrun.
    destruct (blocks w !! this) as [blk|] eqn:Hthis.
    2: { unfold DialectContext_dtor in Hrun. by rewrite Hthis in Hrun. }
    destruct (DialectContext_dtor_ok w this blk Hinv Hthis) as (ps & _ & Hdtor).
    rewrite Hdtor in Hrun. simpl in Hrun. injection Hrun as <-.
    unfold operator_delete, torn_down. simpl.
    by destruct (delete_all_fields ps
      (set_caches (scrubbed (DialectContext.m_llvmContext blk) <$> caches w)
         (log (Unregistered (DialectContext.m_llvmContext blk) this)
            (set_m_map (delete (DialectContext.m_llvmContext blk) (m_map w)) w))))
      as (-> & _).
  - destruct (DialectContext_get thread h w) as [[r w'']| | |] eqn:Hget;
      simpl in Hrun; [|done..]. injection Hrun as ->.
    unfold DialectContext_get in Hget.
    destruct (decide (h = nullptr)) as [->|Hh].
    { unfold CurrentContextCache_get in Hget.
      by rewrite bool_decide_eq_false_2 in Hget by (intros ?; done). }
    destruct (CurrentContextCache_get_ok w thread h Hinv Hadm Hh)
      as (w1 & c' & Hrun & _ & _ & _ & _ & Hm & _).
    rewrite Hrun in Hget. simpl in Hget. case_decide as Hr; [done|].
    by injection Hget as _ <-.
  - destruct (caches w !! thread) as [c|] eqn:Hc.
    2: { unfold thread_exit in Hrun. rewrite Hc in Hrun. by injection Hrun as <-. }
    destruct (thread_exit_ok w thread c (inv_list _ Hinv) Hc) as [Hrun' _].
    rewrite Hrun' in Hrun. by injection Hrun as <-.
Qed.

(** A registration stays until its block is destroyed. *)
Lemma registered_step w o w' h b :
  invariant w → admissible o w → exec o w = Done w' →
  o ≠ Destroy b → m_map w !! h = Some b → m_map w' !! h = Some b.
Proof.
  intros Hinv Hadm Hrun Ho Hb.
  rewrite (exec_m_map w o w' Hinv Hadm Hrun).
  destruct o as [h' ds p|this|thread h'|thread]; try done.
  - simpl in Hrun.
    destruct (DialectContext_make h' ds p w) as [[r w1]| | |] eqn:Hmake;
      simpl in Hrun; [|done..].
    apply DialectContext_make_Done in Hmake as (_ & _ & Habsent & _).
    rewrite lookup_insert_ne; [done|]. congruence.
  - destruct (blocks w !! this) as [blk|] eqn:Hthis; [|done].
    rewrite lookup_delete_ne; [done|]. intros Hctx.
    assert (m_map w !! h = Some this) as Hthis'.
    { apply (inv_registry _ Hinv). exists blk. by rewrite Hctx. }
    congruence.
Qed.

Lemma registered_stable w os w' h b :
  reachable w → m_map w !! h = Some b →
  Forall (λ o, o ≠ Destroy b) os → steps w os w' →
  reachable w' ∧ m_map w' !! h = Some b.
Proof.
  intros Hw Hb Hos Hsteps. revert Hw Hb Hos.
  induction Hsteps as [|w o w' os w'' Hadm Hrun _ IH]; intros Hw Hb Hos; [done|].
  apply Forall_cons in Hos as [Ho Hos].
  apply IH; [by eapply reachable_step| |done].
  eapply registered_step; eauto using reachable_invariant.
Qed.

Lemma CurrentContextCache_get_miss w thread h c :
  h ≠ nullptr → caches w !! thread = Some c →
  CurrentContextCache.m_llvmContext c ≠ h →
  CurrentContextCache_get thread h w =
    Done (DenseMap_lookup (m_map w) h,
          set_caches (<[thread := with_context h (DenseMap_lookup (m_map w) h) c]>
                        (caches w)) w).
Proof.
  intros Hh Hc Hmiss. unfold CurrentContextCache_get.
  rewrite bool_decide_eq_true_2 by done. simpl. rewrite Hc. simpl.
  rewrite Hc. simpl. by rewrite decide_True.
Qed.

(** C1: from the registration of the block [b] for the context [h] until
    the destruction of [b], the lookup of [h] by any thread returns [b],
    whether the cache of the thread holds [h] (then nothing changes) or
    not; after the lookup the cache of the thread holds [h] and [b], and
    a cache that held another context has just these two fields changed. *)
Theorem lookup_returns_registered_block
    (w0 w1 w : World) (h b thread : addr) (ds : list DialectDescriptor) (os : list op) :
  reachable w0 → admissible (Make h ds b) w0 →
  DialectContext_make h ds b w0 = Done (b, w1) →
  Forall (λ o, o ≠ Destroy b) os → steps w1 os w →
  thread ≠ nullptr →
  ∃ w' c',
    DialectContext_get thread h w = Done (b, w') ∧
    caches w' !! thread = Some c' ∧
    CurrentContextCache.m_llvmContext c' = h ∧
    CurrentContextCache.m_dialectContext c' = b ∧
    (∀ c, caches w !! thread = Some c →
          CurrentContextCache.m_llvmContext c = h → w' = w) ∧
    (∀ c, caches w !! thread = Some c →
          CurrentContextCache.m_llvmContext c ≠ h →
          w' = set_caches (<[thread := with_context h b c]> (caches w)) w).
Proof.
  intros Hw0 Hadm Hmake Hos Hsteps Hthread.
  assert (Hw1 : reachable w1).
  { apply (reachable_step w0 (Make h ds b)); [done|done|]. simpl. by rewrite Hmake. }
  assert (Hb1 : m_map w1 !! h = Some b).
  { apply DialectContext_make_Done in Hmake as (_ & _ & _ & arr & live & _ & ->).
    simpl. apply lookup_insert_eq. }
  destruct (registered_stable w1 os w h b Hw1 Hb1 Hos Hsteps) as [Hw Hb].
  apply reachable_invariant in Hw.
  destruct (DialectContext_get_ok w thread h b Hw Hthread Hb)
    as (w' & c' & Hrun & Hc' & Hh' & Hd' & Hfast & _).
  exists w', c'. repeat (split; [done|]).
  intros c Hc Hmiss.
  assert (h ≠ nullptr) as Hh.
  { intros ->. destruct (inv_registry _ Hw) as (_ & ? & _). congruence. }
  unfold DialectContext_get in Hrun.
  rewrite (CurrentContextCache_get_miss w thread h c Hh Hc Hmiss) in Hrun.
  rewrite (DenseMap_lookup_Some _ _ _ Hb) in Hrun. simpl in Hrun.
  case_decide; [done|]. by injection Hrun as <-.
Qed.

Lemma example_steps : steps initial example_ops (after example_ops initial).
Proof.
  eapply steps_cons; [split; [done|reflexivity]|reflexivity|].
  eapply steps_cons; [done|reflexivity|].
  eapply steps_cons; [done|reflexivity|].
  apply steps_nil.
Qed.

Lemma example_reachable : reachable (after example_ops initial).
Proof. exact (steps_reachable _ _ _ reachable_initial example_steps). Qed.

Lemma lookup_returns_registered_block_witness :
  ∃ w' c',
    DialectContext_get 3%N 7%N (after example_ops initial) = Done (50%N, w') ∧
    caches w' !! 3%N = Some c' ∧
    CurrentContextCache.m_llvmContext c' = 7%N ∧
    CurrentContextCache.m_dialectContext c' = 50%N.
Proof.
  destruct (lookup_returns_registered_block initial
              (after [Make 7%N example_dialects 50%N] initial)
              (after example_ops initial) 7%N 50%N 3%N example_dialects
              [Get 1%N 7%N; Get 2%N 7%N])
    as (w' & c' & Hrun & Hc' & Hh & Hd & _).
  - apply reachable_initial.
  - split; [done|reflexivity].
  - reflexivity.
  - repeat constructor; discriminate.
  - eapply steps_cons; [done|reflexivity|].
    eapply steps_cons; [done|reflexivity|].
    apply steps_nil.
  - done.
  - by exists w', c'.
Defined.

(** C2: [remove] fails its assertion exactly when the registry does not
    have the block for the context; otherwise it takes the context out of
    the registry, sets the context field of every cache that holds the
    context to null, and leaves every other cache as it is. *)
Theorem remove_checks_and_scrubs (w : World) (h d : addr) :
  reachable w →
  (ContextMap_remove h d w = Abort ↔ DenseMap_lookup (m_map w) h ≠ d) ∧
  (DenseMap_lookup (m_map w) h = d →
   ∃ w', ContextMap_remove h d w = Done w' ∧
     m_map w' = delete h (m_map w) ∧
     (∀ a c, caches w !! a = Some c → CurrentContextCache.m_llvmContext c = h →
             caches w' !! a = Some (with_llvmContext nullptr c)) ∧
     (∀ a c, caches w !! a = Some c → CurrentContextCache.m_llvmContext c ≠ h →
             caches w' !! a = Some c) ∧
     (∀ a, caches w !! a = None → caches w' !! a = None) ∧
     m_caches w' = m_caches w ∧ blocks w' = blocks w).
Proof.
  intros Hw%reachable_invariant. split; [apply ContextMap_remove_abort|].
  intros Hd. eexists. split; [by apply ContextMap_remove_ok; [apply Hw|]|]. simpl.
  split; [done|]. split; [|split; [|split]].
  - intros a c Hc Hh. rewrite lookup_fmap, Hc. simpl. unfold scrubbed.
    by rewrite decide_True.
  - intros a c Hc Hh. rewrite lookup_fmap, Hc. simpl. unfold scrubbed.
    by rewrite decide_False.
  - intros a Hc. by rewrite lookup_fmap, Hc.
  - done.
Qed.

Lemma remove_checks_and_scrubs_witness :
  ∃ w', ContextMap_remove 7%N 50%N (after example_ops initial) = Done w' ∧
        m_map w' = delete 7%N (m_map (after example_ops initial)) ∧
        caches w' !! 1%N
          = Some (CurrentContextCache.mk nullptr 50%N (AtNext 2%N) nullptr).
Proof.
  destruct (proj2 (remove_checks_and_scrubs (after example_ops initial) 7%N 50%N
                     example_reachable) eq_refl)
    as (w' & Hrun & Hm & Hscrub & _).
  exists w'. split; [exact Hrun|]. split; [exact Hm|].
  apply (Hscrub 1%N (CurrentContextCache.mk 7%N 50%N (AtNext 2%N) nullptr));
    reflexivity.
Defined.

(** C4: [insert] fails its assertion exactly when the context is in the
    registry, and otherwise adds the entry; so the creation of a block
    for a context that has a live block fails, and no two live blocks
    belong to one context. *)
Theorem registration_unique (w : World) (h b : addr) :
  (ContextMap_insert h b w = Abort ↔ is_Some (m_map w !! h)) ∧
  (m_map w !! h = None →
   ContextMap_insert h b w = Done (set_m_map (<[h := b]> (m_map w)) w)) ∧
  (reachable w →
   ∀ b1 blk1, blocks w !! b1 = Some blk1 →
     m_map w !! DialectContext.m_llvmContext blk1 = Some b1 ∧
     (∀ size this, DialectContext_ctor this (DialectContext.m_llvmContext blk1) size w
                     = Abort) ∧
     (∀ ds p, p ≠ nullptr →
        DialectContext_make (DialectContext.m_llvmContext blk1) ds p w = Abort) ∧
     (∀ b2 blk2, blocks w !! b2 = Some blk2 →
        DialectContext.m_llvmContext blk2 = DialectContext.m_llvmContext blk1 →
        b2 = b1)).
Proof.
  split; [|split].
  - split.
    + intros Habort. destruct (m_map w !! h) eqn:Hh; [by eexists|].
      by rewrite ContextMap_insert_absent in Habort.
    + apply ContextMap_insert_present.
  - apply ContextMap_insert_absent.
  - intros Hw%reachable_invariant b1 blk1 Hb1.
    destruct (inv_registry _ Hw) as (Hreg & _).
    assert (Hreg1 : m_map w !! DialectContext.m_llvmContext blk1 = Some b1).
    { apply Hreg. by exists blk1. }
    split; [done|]. split; [|split].
    + intros size this. unfold DialectContext_ctor.
      apply ContextMap_insert_present. simpl. by eexists.
    + intros ds p Hp. apply DialectContext_make_present; [done|by eexists].
    + intros b2 blk2 Hb2 Hctx.
      assert (m_map w !! DialectContext.m_llvmContext blk1 = Some b2).
      { apply Hreg. by exists blk2. }
      congruence.
Qed.

Lemma registration_unique_witness :
  DialectContext_make 7%N example_dialects 60%N (after example_ops initial) = Abort.
Proof.
  refine (proj1 (proj2 (proj2 (proj2 (proj2 (registration_unique
            (after example_ops initial) 7%N 60%N)) example_reachable 50%N
            (DialectContext.mk 7%N 3 [Value 100%N; Value nullptr; Value 102%N]) _)))
            example_dialects 60%N _).
  - reflexivity.
  - done.
Defined.

End registry.

(** ** The extension block *)

Section block.

Lemma spec_block_size_nonneg (ds : list DialectDescriptor) : 0 ≤ spec_block_size ds.
Proof. induction ds as [|d ds IH]; simpl; lia. Qed.

Lemma spec_block_size_bound (ds : list DialectDescriptor) d :
  d ∈ ds → index d + 1 ≤ spec_block_size ds.
Proof.
  induction ds as [|d' ds IH]; [by intros ?%elem_of_nil|].
  intros [->|Hd%IH]%elem_of_cons; simpl; lia.
Qed.

(** Without a slot [UINT_MAX] the first loop of [make] computes the size
    that the specification names. *)
Lemma array_size_spec (ds : list DialectDescriptor) :
  Forall valid_index ds → array_size ds = spec_block_size ds.
Proof.
  intros Hvalid. unfold array_size.
  enough (Hgen : ∀ acc, 0 ≤ acc →
    fold_left (λ size desc, Z.max size (wrap32 (index desc + 1))) ds acc
      = Z.max acc (spec_block_size ds)).
  { rewrite Hgen by done. pose proof (spec_block_size_nonneg ds). lia. }
  induction Hvalid as [|d ds Hd _ IH]; intros acc Hacc; simpl; [lia|].
  unfold valid_index in Hd. rewrite wrap32_small by lia. rewrite IH by lia. lia.
Qed.

(** The second loop of [make], for slots inside the array. *)
Lemma fill_ok (h : addr) (ds : list DialectDescriptor) : ∀ arr live,
  Forall (λ d, 0 ≤ index d ∧ (Z.to_nat (index d) < length arr)%nat) ds →
  ∃ arr' live',
    fill h ds arr live = Done (arr', live') ∧
    length arr' = length arr ∧
    (∀ i : nat, (∀ d, d ∈ ds → index d ≠ Z.of_nat i) → arr' !! i = arr !! i) ∧
    (∀ ds1 d ds2, ds = ds1 ++ d :: ds2 →
       (∀ d', d' ∈ ds2 → index d' ≠ index d) →
       arr' !! Z.to_nat (index d) = Some (Value (make d h))) ∧
    (∀ p, p ∈ live' ↔
          p ∈ live ∨ p ≠ nullptr ∧ ∃ d, d ∈ ds ∧ make d h = p).
Proof.
  induction ds as [|d ds IH]; intros arr live Hvalid.
  - exists arr, live. split; [done|]. split; [done|]. split; [done|]. split.
    + intros ds1 d ds2 Hds. by destruct ds1.
    + intros p. split; [by left|]. intros [?|(_ & d & ?%elem_of_nil & _)]; done.
  - apply Forall_cons in Hvalid as [[Hd0 Hd] Hvalid]. simpl.
    rewrite decide_True by done.
    set (arr1 := <[Z.to_nat (index d) := Value (make d h)]> arr).
    set (live1 := if decide (make d h = nullptr) then live else {[make d h]} ∪ live).
    destruct (IH arr1 live1) as (arr' & live' & Hrun & Hlen & Hkeep & Hput & Hlive).
    { unfold arr1. eapply Forall_impl; [done|]. intros d'. simpl.
      by rewrite length_insert. }
    exists arr', live'. split; [done|].
    split; [by rewrite Hlen; apply length_insert|]. split; [|split].
    + intros i Hi. rewrite Hkeep by (intros d' ?; apply Hi; by right).
      apply list_lookup_insert_ne. intros <-. apply (Hi d); [left|]. lia.
    + intros ds1 d0 ds2 Hds Hlast. destruct ds1 as [|d1 ds1].
      * simpl in Hds. injection Hds as <- <-.
        rewrite (Hkeep (Z.to_nat (index d))).
        { by apply list_lookup_insert_eq. }
        intros d' Hd'. rewrite Z2Nat.id by done. by apply Hlast.
      * simpl in Hds. injection Hds as <- ->. by eapply Hput.
    + intros p. rewrite Hlive. unfold live1. split.
      * intros [Hp|(Hp & d' & Hd' & Hmk)].
        { case_decide as Hnull; [by left|].
          apply elem_of_union in Hp as [->%elem_of_singleton|?]; [|by left].
          right. split; [done|]. exists d. split; [left|done]. }
        right. split; [done|]. exists d'. split; [by right|done].
      * intros [Hp|(Hp & d' & [->|Hd']%elem_of_cons & Hmk)].
        { left. case_decide; [done|]. apply elem_of_union. by right. }
        { left. rewrite decide_False by congruence.
          apply elem_of_union. left. by apply elem_of_singleton. }
        right. split; [done|]. by exists d'.
Qed.

Lemma fill_valid (ds : list DialectDescriptor) :
  Forall valid_index ds →
  Forall (λ d, 0 ≤ index d ∧
               (Z.to_nat (index d)
                < length (replicate (Z.to_nat (array_size ds)) (Value nullptr)))%nat) ds.
Proof.
  intros Hvalid. rewrite length_replicate, array_size_spec by done.
  apply Forall_forall. intros d Hd.
  pose proof (spec_block_size_bound ds d Hd).
  rewrite Forall_forall in Hvalid. specialize (Hvalid d Hd).
  unfold valid_index in Hvalid. lia.
Qed.

(** [make] for a context that is not registered and slots below
    [UINT_MAX]. *)
Lemma DialectContext_make_ok (w : World) (h p : addr) (ds : list DialectDescriptor) :
  Forall valid_index ds → p ≠ nullptr → m_map w !! h = None →
  ∃ arr live,
    fill h ds (replicate (Z.to_nat (array_size ds)) (Value nullptr)) (objects w)
      = Done (arr, live) ∧
    DialectContext_make h ds p w = Done (p, made h p (array_size ds) arr live w).
Proof.
  intros Hvalid Hp Hh.
  destruct (fill_ok h ds (replicate (Z.to_nat (array_size ds)) (Value nullptr))
              (objects w) (fill_valid ds Hvalid))
    as (arr & live & Hfill & _).
  exists arr, live. split; [done|].
  rewrite DialectContext_make_unfold by done. by rewrite Hfill.
Qed.

(** C6, as the code has it: for slot indices below [UINT_MAX], [make]
    builds a block of exactly the largest index plus one slots (none for
    no descriptor); the array is all null and then filled, so a slot that
    no descriptor names is null, and a slot that descriptors name holds
    the object of the last of them. *)
Theorem make_block_sizing (w : World) (h p : addr) (ds : list DialectDescriptor) :
  Forall valid_index ds → p ≠ nullptr → m_map w !! h = None →
  ∃ w' blk,
    DialectContext_make h ds p w = Done (p, w') ∧
    blocks w' !! p = Some blk ∧
    DialectContext.m_llvmContext blk = h ∧
    DialectContext.m_dialectArraySize blk = spec_block_size ds ∧
    length (DialectContext.dialectArray blk) = Z.to_nat (spec_block_size ds) ∧
    fill h ds (replicate (Z.to_nat (spec_block_size ds)) (Value nullptr)) (objects w)
      = Done (DialectContext.dialectArray blk, objects w') ∧
    (∀ i : nat, (i < length (DialectContext.dialectArray blk))%nat →
       (∀ d, d ∈ ds → index d ≠ Z.of_nat i) →
       DialectContext.dialectArray blk !! i = Some (Value nullptr)) ∧
    (∀ ds1 d ds2, ds = ds1 ++ d :: ds2 →
       (∀ d', d' ∈ ds2 → index d' ≠ index d) →
       DialectContext.dialectArray blk !! Z.to_nat (index d)
         = Some (Value (make d h))).
Proof.
  intros Hvalid Hp Hh.
  destruct (fill_ok h ds (replicate (Z.to_nat (array_size ds)) (Value nullptr))
              (objects w) (fill_valid ds Hvalid))
    as (arr & live & Hfill & Hlen & Hkeep & Hput & _).
  exists (made h p (array_size ds) arr live w), (DialectContext.mk h (array_size ds) arr).
  rewrite length_replicate in Hlen.
  split. { rewrite DialectContext_make_unfold by done. by rewrite Hfill. }
  split; [simpl; apply lookup_insert_eq|]. simpl.
  rewrite <- (array_size_spec ds Hvalid).
  repeat (split; [done|]). split; [|done].
  intros i Hi Hnone. rewrite Hkeep by done.
  apply lookup_replicate. split; [done|]. lia.
Qed.

Lemma make_block_sizing_witness :
  ∃ w' blk,
    DialectContext_make 7%N example_dialects 50%N initial = Done (50%N, w') ∧
    blocks w' !! 50%N = Some blk ∧
    DialectContext.m_dialectArraySize blk = 3 ∧
    DialectContext.dialectArray blk !! 1%nat = Some (Value nullptr).
Proof.
  destruct (make_block_sizing initial 7%N 50%N example_dialects)
    as (w' & blk & Hrun & Hblk & _ & Hsize & Hlen & _ & Hnull & _).
  - repeat constructor; vm_compute; congruence.
  - vm_compute. congruence.
  - reflexivity.
  - exists w', blk. split; [exact Hrun|]. split; [exact Hblk|].
    split; [exact Hsize|]. apply Hnull.
    + rewrite Hlen. vm_compute. lia.
    + intros d Hd. vm_compute in Hd.
      apply elem_of_cons in Hd as [->|Hd]; [vm_compute; congruence|].
      apply elem_of_cons in Hd as [->|Hd]; [vm_compute; congruence|].
      by apply elem_of_nil in Hd.
Defined.

(** The claim C6 as stated fails for the slot index [UINT_MAX]: the size
    wraps to zero, where the largest index plus one is [2^32], and the
    store into the slot is outside the array. *)
Lemma make_block_size_wraps :
  array_size wrapping_dialects = 0 ∧
  spec_block_size wrapping_dialects = 4294967296 ∧
  DialectContext_make 7%N wrapping_dialects 50%N initial = Undefined.
Proof. repeat split; reflexivity. Qed.

End block.

(** ** Teardown, and the reuse of a context *)

Section lifecycle.

(** C7: the destructor of a live block first takes the entry of the
    block out of the registry, with no object deleted yet, and then
    deletes the object of every slot that is not null, in the order of
    the slots; in the log, every deletion comes after the removal. *)
Theorem teardown_unregisters_first (w : World) (this : addr) (blk : DialectContext.t) :
  reachable w → blocks w !! this = Some blk →
  let h := DialectContext.m_llvmContext blk in
  ∃ ps w1 w',
    DialectContext.dialectArray blk = Value <$> ps ∧
    ContextMap_remove h this w = Done w1 ∧
    m_map w1 !! h = None ∧ objects w1 = objects w ∧
    trace w1 = trace w ++ [Unregistered h this] ∧
    DialectContext_dtor this w = Done w' ∧
    w' = delete_all ps w1 ∧
    m_map w' !! h = None ∧
    trace w' = trace w ++ Unregistered h this
                 :: (Deleted <$> filter (λ p, p ≠ nullptr) ps) ∧
    (∀ p, p ∈ objects w' ↔ p ∈ objects w ∧ (p = nullptr ∨ p ∉ ps)) ∧
    (∀ (i : nat) p, trace w' !! i = Some (Deleted p) → (length (trace w) ≤ i)%nat →
       (length (trace w) < i)%nat ∧
       trace w' !! length (trace w) = Some (Unregistered h this)).
Proof.
  intros Hw%reachable_invariant Hthis h.
  destruct (DialectContext_dtor_ok w this blk Hw Hthis) as (ps & Hps & Hdtor).
  fold h in Hdtor.
  assert (Hmh : m_map w !! h = Some this).
  { apply (inv_registry _ Hw). by exists blk. }
  set (w1 := set_caches (scrubbed h <$> caches w)
               (log (Unregistered h this) (set_m_map (delete h (m_map w)) w))).
  destruct (delete_all_fields ps w1) as (Hm & _ & _ & _ & Htrace & Hobj).
  exists ps, w1, (delete_all ps w1). split; [done|]. split.
  { apply ContextMap_remove_ok; [apply Hw|]. by apply DenseMap_lookup_Some. }
  split; [simpl; apply lookup_delete_eq|]. split; [done|]. split; [done|].
  split; [done|]. split; [done|].
  split. { rewrite Hm. simpl. apply lookup_delete_eq. }
  assert (Htrace' : trace (delete_all ps w1)
            = trace w ++ Unregistered h this
                :: (Deleted <$> filter (λ p, p ≠ nullptr) ps)).
  { rewrite Htrace. simpl. by rewrite <- app_assoc. }
  split; [done|]. split; [done|].
  intros i p Hi Hle. rewrite Htrace'. rewrite Htrace' in Hi. split.
  - destruct (decide (i = length (trace w))) as [->|]; [|lia].
    rewrite lookup_app_r, Nat.sub_diag in Hi by lia. done.
  - by rewrite lookup_app_r, Nat.sub_diag by lia.
Qed.

Lemma teardown_unregisters_first_witness :
  ∃ w', DialectContext_dtor 50%N (after example_ops initial) = Done w' ∧
        trace w' = [Unregistered 7%N 50%N; Deleted 100%N; Deleted 102%N].
Proof.
  destruct (teardown_unregisters_first (after example_ops initial) 50%N
              (DialectContext.mk 7%N 3 [Value 100%N; Value nullptr; Value 102%N]))
    as (ps & w1 & w' & Hps & _ & _ & _ & _ & Hrun & _ & _ & Htrace & _).
  - exact example_reachable.
  - reflexivity.
  - exists w'. split; [exact Hrun|]. rewrite Htrace. simpl in Hps.
    destruct ps as [|p0 [|p1 [|p2 [|]]]]; try discriminate.
    injection Hps as <- <- <-. reflexivity.
Defined.

(** C3: a context is registered with the block [b1], a thread looks it
    up, the block is destroyed, and the context, at the same address, is
    registered with the block [b2]; then the thread, whose cache held
    the context and [b1], gets [b2]: the destruction has set the context
    of the cache to null. *)
Theorem lookup_after_handle_reuse
    (w0 : World) (h b1 b2 thread : addr) (ds1 ds2 : list DialectDescriptor) :
  reachable w0 →
  h ≠ nullptr → thread ≠ nullptr → b1 ≠ nullptr → b2 ≠ nullptr →
  m_map w0 !! h = None →
  blocks w0 !! b1 = None → blocks w0 !! b2 = None →
  Forall valid_index ds1 → Forall valid_index ds2 →
  ∃ w1 w2 w3 w4 w5 c,
    DialectContext_make h ds1 b1 w0 = Done (b1, w1) ∧
    DialectContext_get thread h w1 = Done (b1, w2) ∧
    caches w2 !! thread = Some c ∧
    CurrentContextCache.m_llvmContext c = h ∧
    CurrentContextCache.m_dialectContext c = b1 ∧
    destroy b1 w2 = Done w3 ∧
    caches w3 !! thread = Some (with_llvmContext nullptr c) ∧
    DialectContext_make h ds2 b2 w3 = Done (b2, w4) ∧
    DialectContext_get thread h w4 = Done (b2, w5).
Proof.
  intros Hw0%reachable_invariant Hh Hthread Hb1 Hb2 Habsent Hfresh1 Hfresh2 Hds1 Hds2.
  destruct (DialectContext_make_ok w0 h b1 ds1 Hds1 Hb1 Habsent)
    as (arr1 & live1 & Hfill1 & Hmake1).
  pose proof (invariant_made w0 h ds1 b1 arr1 live1 Hw0 Hh Hb1 Hfresh1 Habsent Hfill1)
    as Hw1.
  set (w1 := made h b1 (array_size ds1) arr1 live1 w0) in *.
  assert (Hreg1 : m_map w1 !! h = Some b1) by apply lookup_insert_eq.
  destruct (DialectContext_get_ok w1 thread h b1 Hw1 Hthread Hreg1)
    as (w2 & c & Hget1 & Hc & Hch & Hcd & _ & Hm2 & Hbs2 & _ & _ & Hw2).
  assert (Hblk2 : blocks w2 !! b1
            = Some (DialectContext.mk h (array_size ds1) arr1)).
  { rewrite Hbs2. apply lookup_insert_eq. }
  destruct (DialectContext_dtor_ok w2 b1 _ Hw2 Hblk2) as (ps & _ & Hdtor).
  simpl in Hdtor.
  pose proof (invariant_destroyed w2 b1 _ ps Hw2 Hblk2) as Hw3. simpl in Hw3.
  set (w3 := operator_delete b1 (torn_down h b1 ps w2)) in *.
  destruct (delete_all_fields ps
    (set_caches (scrubbed h <$> caches w2)
       (log (Unregistered h b1) (set_m_map (delete h (m_map w2)) w2))))
    as (Hm3 & _ & Hcs3 & Hbs3 & _).
  assert (Habsent3 : m_map w3 !! h = None).
  { unfold w3, operator_delete, torn_down. simpl. rewrite Hm3. simpl.
    apply lookup_delete_eq. }
  assert (Hfresh3 : blocks w3 !! b2 = None).
  { unfold w3, operator_delete, torn_down. simpl. rewrite Hbs3. simpl.
    rewrite Hbs2. simpl. destruct (decide (b1 = b2)) as [->|Hne].
    - apply lookup_delete_eq.
    - by rewrite lookup_delete_ne, lookup_insert_ne. }
  destruct (DialectContext_make_ok w3 h b2 ds2 Hds2 Hb2 Habsent3)
    as (arr2 & live2 & Hfill2 & Hmake2).
  pose proof (invariant_made w3 h ds2 b2 arr2 live2 Hw3 Hh Hb2 Hfresh3 Habsent3 Hfill2)
    as Hw4.
  set (w4 := made h b2 (array_size ds2) arr2 live2 w3) in *.
  assert (Hreg4 : m_map w4 !! h = Some b2) by apply lookup_insert_eq.
  destruct (DialectContext_get_ok w4 thread h b2 Hw4 Hthread Hreg4)
    as (w5 & c5 & Hget2 & _).
  exists w1, w2, w3, w4, w5, c. repeat (split; [done|]).
  split. { unfold destroy. by rewrite Hdtor. }
  split; [|done].
  unfold w3, operator_delete, torn_down. simpl. rewrite Hcs3. simpl.
  rewrite lookup_fmap, Hc. simpl. unfold scrubbed. by rewrite decide_True.
Qed.

Lemma lookup_after_handle_reuse_witness :
  ∃ w1 w2 w3 w4 w5,
    DialectContext_make 7%N example_dialects 50%N initial = Done (50%N, w1) ∧
    DialectContext_get 1%N 7%N w1 = Done (50%N, w2) ∧
    destroy 50%N w2 = Done w3 ∧
    DialectContext_make 7%N example_dialects 60%N w3 = Done (60%N, w4) ∧
    DialectContext_get 1%N 7%N w4 = Done (60%N, w5).
Proof.
  destruct (lookup_after_handle_reuse initial 7%N 50%N 60%N 1%N
              example_dialects example_dialects)
    as (w1 & w2 & w3 & w4 & w5 & c & H1 & H2 & _ & _ & _ & H3 & _ & H4 & H5);
    try done.
  - apply reachable_initial.
  - repeat constructor; vm_compute; congruence.
  - repeat constructor; vm_compute; congruence.
  - by exists w1, w2, w3, w4, w5.
Defined.

End lifecycle.

(** ** The fast path next to other threads

    A call of [CurrentContextCache::get] holds the mutex only on its slow
    path.  The lemmas of this section justify the treatment of a call as
    one step: what other threads do between the load of the fast path and
    the rest of the call does not change the result. *)

Section interleaving.
Implicit Types (w : World) (c : CurrentContextCache.t).

Lemma get_split this h w :
  CurrentContextCache_get this h w =
    r ← get_load this h w; get_rest r.1 this h r.2.
Proof.
  unfold CurrentContextCache_get, get_load, get_rest.
  destruct (assert _); simpl; [|done..].
  destruct (match caches w !! this with
            | None => CurrentContextCache_ctor this w
            | Some _ => Done w
            end) as [w1| | |]; simpl; [|done..].
  destruct (caches w1 !! this) as [c|] eqn:Hc; simpl; [|done].
  destruct (decide (CurrentContextCache.m_llvmContext c ≠ h)) as [Hmiss|Hhit].
  - rewrite bool_decide_eq_false_2 by done. simpl. rewrite Hc. simpl.
    by rewrite lookup_insert_eq.
  - apply dec_stable in Hhit. rewrite bool_decide_eq_true_2 by done.
    simpl. by rewrite Hc.
Qed.

Lemma CurrentContextCache_ctor_others this w w' a c :
  CurrentContextCache_ctor this w = Done w' → a ≠ this →
  caches w !! a = Some c →
  ∃ c', caches w' !! a = Some c' ∧
        CurrentContextCache.m_llvmContext c' = CurrentContextCache.m_llvmContext c ∧
        CurrentContextCache.m_dialectContext c' = CurrentContextCache.m_dialectContext c.
Proof.
  unfold CurrentContextCache_ctor. intros Hrun Ha Hc.
  destruct (decide (m_caches w = nullptr)) as [Hhead|Hhead]; simpl in Hrun.
  - injection Hrun as <-. simpl. exists c. by rewrite lookup_insert_ne.
  - destruct (caches w !! m_caches w) as [n|] eqn:Hn; simpl in Hrun; [|done].
    injection Hrun as <-. simpl. rewrite lookup_insert_ne by done.
    destruct (decide (m_caches w = a)) as [Heq|Hne].
    + rewrite Heq in *. rewrite lookup_insert_eq. eexists. split; [done|].
      assert (n = c) as -> by congruence. done.
    + rewrite lookup_insert_ne by done. by exists c.
Qed.

Lemma DialectContext_get_others this h w r w' a c :
  DialectContext_get this h w = Done (r, w') → a ≠ this →
  caches w !! a = Some c →
  ∃ c', caches w' !! a = Some c' ∧
        CurrentContextCache.m_llvmContext c' = CurrentContextCache.m_llvmContext c ∧
        CurrentContextCache.m_dialectContext c' = CurrentContextCache.m_dialectContext c.
Proof.
  unfold DialectContext_get, CurrentContextCache_get. intros Hrun Ha Hc.
  destruct (assert _); simpl in Hrun; [|done..].
  destruct (match caches w !! this with
            | None => CurrentContextCache_ctor this w
            | Some _ => Done w
            end) as [w1| | |] eqn:Hready; simpl in Hrun; [|done..].
  assert (∃ c1, caches w1 !! a = Some c1 ∧
            CurrentContextCache.m_llvmContext c1 = CurrentContextCache.m_llvmContext c ∧
            CurrentContextCache.m_dialectContext c1 = CurrentContextCache.m_dialectContext c)
    as (c1 & Hc1 & Hh1 & Hd1).
  { destruct (caches w !! this).
    - injection Hready as <-. by exists c.
    - by eapply CurrentContextCache_ctor_others. }
  destruct (caches w1 !! this) as [c0|]; simpl in Hrun; [|done].
  destruct (decide (CurrentContextCache.m_llvmContext c0 ≠ h)); simpl in Hrun;
    case_decide; try done; injection Hrun as _ <-; exists c1; simpl.
  - by rewrite lookup_insert_ne.
  - done.
Qed.




End interleaving.

(** * Further properties *)

(** ** Operation names *)

Section op_names_more.
Import OpName.

(** X1: no call is both a simple and an overloaded operation of one
    base name. *)
Theorem call_classification_exclusive (i : CallInst) (name : string) :
  isSimpleOperation i name && isOverloadedOperation i name = false.
Proof.
  unfold isSimpleOperation, isOverloadedOperation.
  destruct (getCalledFunction i) as [fn|]; [|done].
  apply andb_false_iff.
  destruct (isSimpleOperationDecl fn name) eqn:Hsimple; [right|by left].
  apply String.eqb_eq in Hsimple.
  destruct (isOverloadedOperationDecl fn name) eqn:Hover; [|done].
  apply overloaded_decl_unfold in Hover as (Hlen & _). rewrite Hsimple in Hlen. lia.
Qed.

End op_names_more.

(** ** The key allocator *)

Section keys_more.
Import Keys.

Lemma NoDup_filter_lookup {A} (P : A → Prop) `{!∀ x, Decision (P x)} (l : list A) :
  (∀ (i j : nat) x, l !! i = Some x → l !! j = Some x → P x → i = j) →
  NoDup (filter P l).
Proof.
  induction l as [|a l IH]; intros Hinj; [constructor|].
  assert (NoDup (filter P l)) as Hl.
  { apply IH. intros i j x Hi Hj Hx. by injection (Hinj (S i) (S j) x Hi Hj Hx). }
  rewrite filter_cons. case_decide as Ha; [|done].
  apply NoDup_cons. split; [|done].
  intros [_ [j Hj]%list_elem_of_lookup_1]%list_elem_of_filter.
  by specialize (Hinj 0%nat (S j) a eq_refl Hj Ha).
Qed.

Lemma filter_all {A} (P : A → Prop) `{!∀ x, Decision (P x)} (l : list A) :
  Forall P l → filter P l = l.
Proof.
  induction 1 as [|x l Hx _ IH]; [done|].
  by rewrite filter_cons, decide_True, IH.
Qed.

(** The entries of the vector that are not null are the live keys, each
    once. *)
Lemma live_entries (w : KeyWorld) :
  keys_ok w →
  NoDup (filter (λ k, k ≠ nullptr) (keys w)) ∧
  ∀ k, k ∈ filter (λ k, k ≠ nullptr) (keys w) ↔ is_Some (objs w !! k).
Proof.
  intros [Hb Hback Hforth]. split.
  - apply NoDup_filter_lookup. intros i j k Hi Hj Hk.
    pose proof (Hforth i k Hi Hk) as Hoi. pose proof (Hforth j k Hj Hk) as Hoj.
    rewrite Hoi in Hoj. injection Hoj as ?. lia.
  - intros k. rewrite list_elem_of_filter. split.
    + intros [Hk [n Hn]%list_elem_of_lookup_1]. eexists. by apply (Hforth n).
    + intros [key Hkey]. destruct (Hback k key Hkey) as (Hk & n & _ & Hn).
      split; [done|]. by eapply list_elem_of_lookup_2.
Qed.

Lemma live_count (w : KeyWorld) :
  keys_ok w → size (objs w) = length (filter (λ k, k ≠ nullptr) (keys w)).
Proof.
  intros [Hnd Hlive]%live_entries.
  rewrite <- (size_list_to_set (C := gset addr) _ Hnd), <- size_dom.
  f_equal. apply set_eq. intros k.
  by rewrite elem_of_dom, elem_of_list_to_set, Hlive.
Qed.

(** X2: a key that is constructed and destroyed at once leaves the live
    keys as they were, and the vector as it was or one null entry
    longer. *)
Theorem key_ctor_destroy_round_trip (w w1 : KeyWorld) (this : addr) :
  key_reachable w → this ≠ nullptr → objs w !! this = None →
  Key_ctor this w = Done w1 →
  ∃ w2, Key_destroy this w1 = Done w2 ∧
        objs w2 = objs w ∧
        (keys w2 = keys w ∨ keys w2 = keys w ++ [nullptr]).
Proof.
  intros Hw%key_reachable_ok Hthis Hfresh Hctor.
  pose proof (keys_bounded _ Hw) as Hb.
  destruct (first_null (keys w)) as [Hnot|(n & Hn & Hfirst)].
  - destruct (decide (Z.of_nat (length (keys w)) < UINT_MAX)) as [Hlt|Hge].
    2: { rewrite Key_ctor_full in Hctor; [done|done|lia]. }
    rewrite Key_ctor_append in Hctor by done. injection Hctor as <-.
    eexists. split.
    { apply (Key_destroy_live _ this (length (keys w))); simpl.
      - by rewrite lookup_insert_eq.
      - rewrite length_app. simpl. lia. }
    simpl. split.
    + rewrite delete_insert_eq. by apply delete_id.
    + right. rewrite <- (Nat.add_0_r (length (keys w))). by rewrite insert_app_r.
  - rewrite (Key_ctor_reuse this w n) in Hctor by done. injection Hctor as <-.
    pose proof (lookup_lt_Some _ _ _ Hn) as Hlt.
    eexists. split.
    { apply (Key_destroy_live _ this n); simpl.
      - by rewrite lookup_insert_eq.
      - by rewrite length_insert. }
    simpl. split.
    + rewrite delete_insert_eq. by apply delete_id.
    + left. rewrite list_insert_insert_eq. by apply list_insert_id.
Qed.

Lemma example_keys_reachable : key_reachable example_keys.
Proof.
  eapply (reach_destroy
    {| keys := [16%N; 32%N; 48%N];
       objs := <[48%N := mkKey 2]> (<[32%N := mkKey 1]> (<[16%N := mkKey 0]> ∅)) |}
    32%N); [|by eexists|reflexivity].
  eapply (reach_ctor
    {| keys := [16%N; 32%N];
       objs := <[32%N := mkKey 1]> (<[16%N := mkKey 0]> ∅) |} 48%N);
    [|done|reflexivity|reflexivity].
  eapply (reach_ctor {| keys := [16%N]; objs := <[16%N := mkKey 0]> ∅ |} 32%N);
    [|done|reflexivity|reflexivity].
  eapply (reach_ctor no_keys 16%N); [apply reach_initial|done|reflexivity|reflexivity].
Qed.

Lemma key_ctor_destroy_round_trip_witness :
  ∃ w2, Key_destroy 64%N
          {| keys := [16%N; 64%N; 48%N];
             objs := <[64%N := mkKey 1]> (objs example_keys) |} = Done w2 ∧
        objs w2 = objs example_keys.
Proof.
  destruct (key_ctor_destroy_round_trip example_keys
              {| keys := [16%N; 64%N; 48%N];
                 objs := <[64%N := mkKey 1]> (objs example_keys) |} 64%N)
    as (w2 & Hrun & Hobjs & _).
  - exact example_keys_reachable.
  - done.
  - reflexivity.
  - reflexivity.
  - by exists w2.
Defined.

(** X3: the slot of a new key is the lowest slot that no live key has:
    every lower slot belongs to a live key, so the slot is at most the
    number of live keys. *)
Theorem new_key_slot_dense (w w' : KeyWorld) (this : addr) :
  key_reachable w → this ≠ nullptr → objs w !! this = None →
  Key_ctor this w = Done w' →
  ∃ i, slot_of w' this = Some i ∧
       0 ≤ i ≤ Z.of_nat (size (objs w)) ∧
       (∀ k, slot_of w k ≠ Some i) ∧
       (∀ j, 0 ≤ j < i → ∃ k, slot_of w k = Some j).
Proof.
  intros Hw%key_reachable_ok Hthis Hfresh Hctor.
  pose proof (keys_bounded _ Hw) as Hb.
  assert (Hslots : ∀ n : nat,
    (n ≤ length (keys w))%nat →
    (∀ j, (j < n)%nat → keys w !! j ≠ Some nullptr) →
    (n < length (keys w) → keys w !! n = Some nullptr)%nat →
    Z.of_nat n ≤ Z.of_nat (size (objs w)) ∧
    (∀ k, slot_of w k ≠ Some (Z.of_nat n)) ∧
    (∀ j, 0 ≤ j < Z.of_nat n → ∃ k, slot_of w k = Some j)).
  { intros n Hn Hbelow Hat. split; [|split].
    - rewrite (live_count w Hw), <- (take_drop n (keys w)), filter_app, length_app.
      rewrite (filter_all _ (take n (keys w))).
      + rewrite length_take_le by done. lia.
      + apply Forall_forall. intros k [j Hj]%list_elem_of_lookup_1 ->.
        pose proof (lookup_lt_Some _ _ _ Hj) as Hlt.
        rewrite length_take_le in Hlt by done.
        rewrite lookup_take_lt in Hj by done. by apply (Hbelow j).
    - intros k Hk. unfold slot_of in Hk.
      destruct (objs w !! k) as [key|] eqn:Hkey; [|done].
      simpl in Hk. injection Hk as Hi.
      destruct (keys_back _ Hw k key Hkey) as (Hnn & m & Hm & Hkm).
      assert (m = n) as -> by lia.
      pose proof (lookup_lt_Some _ _ _ Hkm) as Hlt.
      rewrite (Hat Hlt) in Hkm. congruence.
    - intros j Hj.
      assert (Z.to_nat j < length (keys w))%nat as Hlt by lia.
      destruct (lookup_lt_is_Some_2 _ _ Hlt) as [k Hk]. exists k.
      unfold slot_of. rewrite (keys_forth _ Hw (Z.to_nat j) k Hk).
      + simpl. f_equal. lia.
      + intros ->. apply (Hbelow (Z.to_nat j)); [lia|done]. }
  destruct (first_null (keys w)) as [Hnot|(n & Hn & Hfirst)].
  - destruct (decide (Z.of_nat (length (keys w)) < UINT_MAX)) as [Hlt|Hge].
    2: { rewrite Key_ctor_full in Hctor; [done|done|lia]. }
    rewrite Key_ctor_append in Hctor by done. injection Hctor as <-.
    exists (Z.of_nat (length (keys w))). unfold slot_of at 1. simpl.
    rewrite lookup_insert_eq. split; [done|].
    destruct (Hslots (length (keys w))) as (? & ? & ?); [done| |lia|].
    + intros j Hj Hnull. apply Hnot. by eapply list_elem_of_lookup_2.
    + split; [lia|done].
  - rewrite (Key_ctor_reuse this w n) in Hctor by done. injection Hctor as <-.
    pose proof (lookup_lt_Some _ _ _ Hn) as Hlt.
    exists (Z.of_nat n). unfold slot_of at 1. simpl.
    rewrite lookup_insert_eq. split; [done|].
    destruct (Hslots n) as (? & ? & ?); [lia|done|done|].
    split; [lia|done].
Qed.

Lemma new_key_slot_dense_witness :
  ∃ i, slot_of {| keys := [16%N; 64%N; 48%N];
                  objs := <[64%N := mkKey 1]> (objs example_keys) |} 64%N = Some i ∧
       0 ≤ i ≤ Z.of_nat (size (objs example_keys)).
Proof.
  destruct (new_key_slot_dense example_keys
              {| keys := [16%N; 64%N; 48%N];
                 objs := <[64%N := mkKey 1]> (objs example_keys) |} 64%N)
    as (i & Hi & Hbound & _).
  - exact example_keys_reachable.
  - done.
  - reflexivity.
  - reflexivity.
  - by exists i.
Defined.

(** X4: the construction of a key leaves every live key at its slot. *)
Theorem key_ctor_keeps_slots (w w' : KeyWorld) (this k : addr) (i : Z) :
  key_reachable w → this ≠ nullptr → objs w !! this = None →
  Key_ctor this w = Done w' →
  slot_of w k = Some i →
  slot_of w' k = Some i ∧ keys w' !! Z.to_nat i = Some k ∧ slot_of w' this ≠ Some i.
Proof.
  intros Hreach Hthis Hfresh Hctor Hk.
  assert (Hreach' : key_reachable w') by by eapply reach_ctor.
  pose proof (key_reachable_ok _ Hreach') as Hw'.
  assert (k ≠ this) as Hne.
  { intros ->. unfold slot_of in Hk. by rewrite Hfresh in Hk. }
  assert (Hobjs : ∀ k', k' ≠ this → objs w' !! k' = objs w !! k').
  { intros k' Hk'. unfold Key_ctor in Hctor.
    destruct (scan this (keys w) 0) as [[ks n]|].
    - injection Hctor as <-. simpl. by rewrite lookup_insert_ne.
    - unfold push_back in Hctor. case_decide; [|done].
      simpl in Hctor. injection Hctor as <-. simpl. by rewrite lookup_insert_ne. }
  assert (Hk' : slot_of w' k = Some i).
  { unfold slot_of. by rewrite Hobjs. }
  split; [done|]. unfold slot_of in Hk'.
  destruct (objs w' !! k) as [key|] eqn:Hkey; [|done].
  simpl in Hk'. injection Hk' as Hi.
  destruct (keys_back _ Hw' k key Hkey) as (_ & n & Hn & Hkn).
  split. { rewrite <- Hi, Hn, Nat2Z.id. done. }
  unfold slot_of. intros Hthis'.
  destruct (objs w' !! this) as [key'|] eqn:Hkey'; [|done].
  simpl in Hthis'. injection Hthis' as Hi'.
  destruct (keys_back _ Hw' this key' Hkey') as (_ & m & Hm & Hkm).
  assert (m = n) as -> by lia. congruence.
Qed.

Lemma key_ctor_keeps_slots_witness :
  slot_of {| keys := [16%N; 64%N; 48%N];
             objs := <[64%N := mkKey 1]> (objs example_keys) |} 48%N = Some 2.
Proof.
  refine (proj1 (key_ctor_keeps_slots example_keys _ 64%N 48%N 2
                   example_keys_reachable _ _ _ _)).
  - done.
  - reflexivity.
  - reflexivity.
  - reflexivity.
Defined.

(** X5: with fewer than [UINT_MAX] live keys the construction of a key
    does not fail. *)
Theorem key_ctor_succeeds (w : KeyWorld) (this : addr) :
  key_reachable w → Z.of_nat (size (objs w)) < UINT_MAX →
  ∃ w', Key_ctor this w = Done w'.
Proof.
  intros Hw%key_reachable_ok Hsize. pose proof (keys_bounded _ Hw) as Hb.
  destruct (first_null (keys w)) as [Hnot|(n & Hn & Hfirst)].
  - eexists. apply Key_ctor_append; [done|].
    rewrite (live_count w Hw), filter_all in Hsize; [done|].
    apply Forall_forall. by intros k Hk ->.
  - eexists. by apply Key_ctor_reuse.
Qed.

Lemma key_ctor_succeeds_witness : ∃ w', Key_ctor 64%N example_keys = Done w'.
Proof.
  apply (key_ctor_succeeds example_keys 64%N example_keys_reachable).
  vm_compute. reflexivity.
Defined.

End keys_more.

(** ** The registry and the caches *)

Section registry_more.
Implicit Types (w : World) (c : CurrentContextCache.t).

Lemma World_eta w :
  {| m_map := m_map w; m_caches := m_caches w; caches := caches w;
     blocks := blocks w; objects := objects w; trace := trace w |} = w.
Proof. by destruct w. Qed.

Lemma with_llvmContext_null c :
  CurrentContextCache.m_llvmContext c = nullptr → with_llvmContext nullptr c = c.
Proof. destruct c. simpl. by intros ->. Qed.

(** The scrub for a context that no cache holds changes nothing. *)
Lemma scrubbed_unregistered w h :
  caches_coherent w → m_map w !! h = None → scrubbed h <$> caches w = caches w.
Proof.
  intros Hcoh Hh. apply map_eq. intros a. rewrite lookup_fmap.
  destruct (caches w !! a) as [c|] eqn:Hc; [|done]. simpl. f_equal.
  unfold scrubbed. case_decide as Hch; [|done].
  apply with_llvmContext_null.
  destruct (decide (CurrentContextCache.m_llvmContext c = nullptr)) as [|Hnn]; [done|].
  specialize (Hcoh a c Hc Hnn). congruence.
Qed.

(** X6: the cache of a thread that starts and ends without a lookup in
    between leaves no trace: the constructor followed by the destructor
    gives the state back. *)
Theorem cache_ctor_exit_round_trip w this :
  reachable w → this ≠ nullptr → caches w !! this = None →
  ∃ w1, CurrentContextCache_ctor this w = Done w1 ∧
        caches w1 !! this
          = Some (CurrentContextCache.mk nullptr nullptr AtHead (m_caches w)) ∧
        m_caches w1 = this ∧
        thread_exit this w1 = Done w.
Proof.
  intros Hinv%reachable_invariant Hthis Hfresh.
  pose proof (inv_list _ Hinv) as Hlist.
  destruct (CurrentContextCache_ctor_ok w this Hlist Hthis Hfresh) as [Hctor Hlist1].
  eexists. split; [exact Hctor|]. split; [apply lookup_insert_eq|]. split; [done|].
  destruct (thread_exit_ok _ this _ Hlist1 (lookup_insert_eq _ _ _)) as [Hexit _].
  rewrite Hexit. f_equal. unfold set_caches, set_m_caches. simpl.
  etrans; [|apply World_eta]. f_equal.
  apply map_eq. intros b. rewrite lookup_unlinked. simpl.
  destruct (decide (b = this)) as [->|Hb]; [done|].
  rewrite option_fmap_id, lookup_insert_ne by done.
  rewrite lookup_alter.
  destruct (decide (m_caches w = b)) as [Hhead|Hhead].
  - destruct Hlist as (l & _ & Hchain & _).
    destruct (decide (m_caches w = nullptr)) as [Hnull|Hnull].
    + rewrite decide_False by (intros [_ ?]; done). rewrite option_fmap_id.
      pose proof (cache_list_null w (inv_list _ Hinv)) as Hn.
      rewrite <- Hhead, Hnull. by rewrite Hn.
    + rewrite decide_True by done.
      destruct l as [|a l]; simpl in Hchain; [done|].
      destruct Hchain as (Ha & _ & c & Hc & Hp & _).
      rewrite <- Hhead, Ha, Hc. simpl.
      f_equal. destruct c. simpl in *. by subst.
  - rewrite decide_False by (intros [? _]; congruence).
    by rewrite option_fmap_id.
Qed.

Lemma cache_ctor_exit_round_trip_witness :
  ∃ w1, CurrentContextCache_ctor 3%N (after example_ops initial) = Done w1 ∧
        thread_exit 3%N w1 = Done (after example_ops initial).
Proof.
  destruct (cache_ctor_exit_round_trip (after example_ops initial) 3%N)
    as (w1 & Hctor & _ & _ & Hexit).
  - exact example_reachable.
  - done.
  - reflexivity.
  - by exists w1.
Defined.

(** X7: the registration of a context followed by its removal gives the
    state back, but for the entry in the log. *)
Theorem insert_remove_round_trip w h b :
  reachable w → m_map w !! h = None →
  ∃ w1, ContextMap_insert h b w = Done w1 ∧
        DenseMap_lookup (m_map w1) h = b ∧
        caches w1 = caches w ∧
        ContextMap_remove h b w1 = Done (log (Unregistered h b) w).
Proof.
  intros Hinv%reachable_invariant Hh.
  exists (set_m_map (<[h := b]> (m_map w)) w).
  split; [by apply ContextMap_insert_absent|].
  assert (Hlook : DenseMap_lookup (<[h := b]> (m_map w)) h = b).
  { apply DenseMap_lookup_Some, lookup_insert_eq. }
  split; [done|]. split; [done|].
  rewrite (ContextMap_remove_ok _ h b); [|apply Hinv|done].
  f_equal. unfold log, set_caches, set_m_map. simpl.
  rewrite delete_insert_eq, (delete_id _ _ Hh).
  by rewrite (scrubbed_unregistered w h (inv_coherent _ Hinv) Hh).
Qed.

Lemma insert_remove_round_trip_witness :
  ∃ w1, ContextMap_insert 9%N 60%N (after example_ops initial) = Done w1 ∧
        ContextMap_remove 9%N 60%N w1
          = Done (log (Unregistered 9%N 60%N) (after example_ops initial)).
Proof.
  destruct (insert_remove_round_trip (after example_ops initial) 9%N 60%N)
    as (w1 & Hins & _ & _ & Hrem).
  - exact example_reachable.
  - reflexivity.
  - by exists w1.
Defined.

(** X13: a cache never holds a context with a block that is gone: the
    block of a cache whose context is not null is the live block that
    the registry has for this context. *)
Theorem cached_block_is_live w thread c :
  reachable w → caches w !! thread = Some c →
  CurrentContextCache.m_llvmContext c ≠ nullptr →
  m_map w !! CurrentContextCache.m_llvmContext c
    = Some (CurrentContextCache.m_dialectContext c) ∧
  CurrentContextCache.m_dialectContext c ≠ nullptr ∧
  ∃ blk, blocks w !! CurrentContextCache.m_dialectContext c = Some blk ∧
         DialectContext.m_llvmContext blk = CurrentContextCache.m_llvmContext c.
Proof.
  intros Hinv%reachable_invariant Hc Hnn.
  pose proof (inv_coherent _ Hinv thread c Hc Hnn) as Hreg.
  destruct (inv_registry _ Hinv) as (Hrb & _ & Hbnull).
  split; [done|]. apply Hrb in Hreg as (blk & Hblk & Hctx).
  split; [intros Heq; rewrite Heq in Hblk; congruence|]. by exists blk.
Qed.

Lemma cached_block_is_live_witness :
  m_map (after example_ops initial) !! 7%N = Some 50%N ∧
  50%N ≠ nullptr ∧
  ∃ blk, blocks (after example_ops initial) !! 50%N = Some blk ∧
         DialectContext.m_llvmContext blk = 7%N.
Proof.
  apply (cached_block_is_live (after example_ops initial) 1%N
           (CurrentContextCache.mk 7%N 50%N (AtNext 2%N) nullptr)
           example_reachable); [reflexivity|done].
Defined.

(** X14: the list of the registry holds every thread-local cache once
    and nothing else, so the scrub of [remove] reaches every cache and
    ends. *)
Theorem cache_list_complete w h :
  reachable w →
  (∃ l, NoDup l ∧ chain (caches w) AtHead (m_caches w) l ∧
        ∀ a, a ∈ l ↔ is_Some (caches w !! a)) ∧
  scrub (size (caches w)) h (m_caches w) (caches w) = Done (scrubbed h <$> caches w).
Proof.
  intros Hinv%reachable_invariant. split; [apply Hinv|].
  apply scrub_all, Hinv.
Qed.

Lemma cache_list_complete_witness :
  scrub (size (caches (after example_ops initial))) 7%N
    (m_caches (after example_ops initial)) (caches (after example_ops initial))
  = Done (scrubbed 7%N <$> caches (after example_ops initial)).
Proof.
  exact (proj2 (cache_list_complete (after example_ops initial) 7%N example_reachable)).
Defined.

(** X15: every entry of the registry is a live block of the context,
    with an array of the recorded size whose elements have all been
    written. *)
Theorem registered_block_is_built w h b :
  reachable w → m_map w !! h = Some b →
  h ≠ nullptr ∧ b ≠ nullptr ∧
  ∃ blk, blocks w !! b = Some blk ∧
         DialectContext.m_llvmContext blk = h ∧
         length (DialectContext.dialectArray blk)
           = Z.to_nat (DialectContext.m_dialectArraySize blk) ∧
         ∃ ps, DialectContext.dialectArray blk = Value <$> ps.
Proof.
  intros Hinv%reachable_invariant Hb.
  destruct (inv_registry _ Hinv) as (Hrb & Hnull & Hbnull).
  split; [intros ->; congruence|].
  apply Hrb in Hb as (blk & Hblk & Hctx).
  split; [intros ->; congruence|]. exists blk.
  destruct (inv_blocks _ Hinv b blk Hblk) as [Hlen Hwr].
  repeat (split; [done|]). by apply written_cells.
Qed.

Lemma registered_block_is_built_witness :
  7%N ≠ nullptr ∧ 50%N ≠ nullptr ∧
  ∃ blk, blocks (after example_ops initial) !! 50%N = Some blk ∧
         DialectContext.m_llvmContext blk = 7%N ∧
         length (DialectContext.dialectArray blk)
           = Z.to_nat (DialectContext.m_dialectArraySize blk) ∧
         ∃ ps, DialectContext.dialectArray blk = Value <$> ps.
Proof.
  apply (registered_block_is_built (after example_ops initial) 7%N 50%N
           example_reachable). reflexivity.
Defined.

(** X8: the creation of a block followed by its destruction gives the
    registry, the caches and the blocks back. *)
Theorem make_destroy_round_trip w h p (ds : list DialectDescriptor) :
  reachable w → h ≠ nullptr → p ≠ nullptr →
  blocks w !! p = None → m_map w !! h = None → Forall valid_index ds →
  ∃ w1 w2,
    DialectContext_make h ds p w = Done (p, w1) ∧
    m_map w1 !! h = Some p ∧
    destroy p w1 = Done w2 ∧
    m_map w2 = m_map w ∧ m_caches w2 = m_caches w ∧
    caches w2 = caches w ∧ blocks w2 = blocks w.
Proof.
  intros Hinv%reachable_invariant Hh Hp Hfresh Habsent Hds.
  destruct (DialectContext_make_ok w h p ds Hds Hp Habsent)
    as (arr & live & Hfill & Hmake).
  pose proof (invariant_made w h ds p arr live Hinv Hh Hp Hfresh Habsent Hfill) as Hinv1.
  set (w1 := made h p (array_size ds) arr live w) in *.
  assert (Hblk : blocks w1 !! p = Some (DialectContext.mk h (array_size ds) arr))
    by apply lookup_insert_eq.
  destruct (DialectContext_dtor_ok w1 p _ Hinv1 Hblk) as (ps & _ & Hdtor).
  simpl in Hdtor.
  destruct (delete_all_fields ps
    (set_caches (scrubbed h <$> caches w1)
       (log (Unregistered h p) (set_m_map (delete h (m_map w1)) w1))))
    as (Hm & Hhead & Hcs & Hbs & _).
  assert (Hm1 : m_map w1 = <[h := p]> (m_map w)) by done.
  assert (Hhead1 : m_caches w1 = m_caches w) by done.
  assert (Hcs1 : caches w1 = caches w) by done.
  assert (Hbs1 : blocks w1 = <[p := DialectContext.mk h (array_size ds) arr]> (blocks w))
    by done.
  clearbody w1.
  exists w1, (operator_delete p (torn_down h p ps w1)).
  split; [done|]. split; [by rewrite Hm1, lookup_insert_eq|].
  split. { unfold destroy. by rewrite Hdtor. }
  unfold operator_delete, torn_down.
  cbn [m_map m_caches caches blocks log set_blocks].
  rewrite Hm, Hhead, Hcs, Hbs.
  cbn [m_map m_caches caches blocks log set_caches set_m_map].
  rewrite Hm1, Hhead1, Hcs1, Hbs1.
  split. { rewrite delete_insert_eq. by apply delete_id. }
  split; [done|]. split.
  - apply (scrubbed_unregistered w h (inv_coherent _ Hinv) Habsent).
  - rewrite delete_insert_eq. by apply delete_id.
Qed.

Lemma make_destroy_round_trip_witness :
  ∃ w1 w2,
    DialectContext_make 9%N example_dialects 60%N (after example_ops initial)
      = Done (60%N, w1) ∧
    destroy 60%N w1 = Done w2 ∧
    m_map w2 = m_map (after example_ops initial) ∧
    blocks w2 = blocks (after example_ops initial).
Proof.
  destruct (make_destroy_round_trip (after example_ops initial) 9%N 60%N
              example_dialects)
    as (w1 & w2 & Hmake & _ & Hdestroy & Hm & _ & _ & Hb); try done.
  - exact example_reachable.
  - repeat constructor; vm_compute; congruence.
  - by exists w1, w2.
Defined.

(** X9: once a block is destroyed no thread finds it: the lookup of its
    context through any cache gives null, which [DialectContext::get]
    dereferences. *)
Theorem destroyed_block_is_not_found w this blk thread :
  reachable w → blocks w !! this = Some blk → thread ≠ nullptr →
  let h := DialectContext.m_llvmContext blk in
  ∃ w', destroy this w = Done w' ∧
        m_map w' !! h = None ∧ blocks w' !! this = None ∧
        (∃ w'', CurrentContextCache_get thread h w' = Done (nullptr, w'')) ∧
        DialectContext_get thread h w' = Undefined.
Proof.
  intros Hinv%reachable_invariant Hblk Hthread h.
  destruct (DialectContext_dtor_ok w this blk Hinv Hblk) as (ps & _ & Hdtor).
  pose proof (invariant_destroyed w this blk ps Hinv Hblk) as Hinv'.
  fold h in Hdtor, Hinv'.
  set (w' := operator_delete this (torn_down h this ps w)) in *.
  destruct (delete_all_fields ps
    (set_caches (scrubbed h <$> caches w)
       (log (Unregistered h this) (set_m_map (delete h (m_map w)) w))))
    as (Hm & _ & _ & Hbs & _).
  assert (Hgone : m_map w' !! h = None).
  { unfold w', operator_delete, torn_down. simpl. rewrite Hm. simpl.
    apply lookup_delete_eq. }
  assert (Hh : h ≠ nullptr).
  { destruct (inv_registry _ Hinv) as (Hrb & Hnull & _).
    assert (m_map w !! h = Some this) by (apply Hrb; by exists blk).
    intros Heq. rewrite Heq in *. congruence. }
  destruct (CurrentContextCache_get_ok w' thread h Hinv' Hthread Hh)
    as (w'' & c' & Hget & _).
  assert (Hnull : DenseMap_lookup (m_map w') h = nullptr).
  { unfold DenseMap_lookup. by rewrite Hgone. }
  rewrite Hnull in Hget.
  exists w'. split. { unfold destroy. by rewrite Hdtor. }
  split; [done|]. split.
  { unfold w', operator_delete, torn_down. simpl. rewrite Hbs. simpl.
    apply lookup_delete_eq. }
  split; [by exists w''|].
  unfold DialectContext_get. by rewrite Hget.
Qed.

Lemma destroyed_block_is_not_found_witness :
  ∃ w', destroy 50%N (after example_ops initial) = Done w' ∧
        DialectContext_get 1%N 7%N w' = Undefined.
Proof.
  destruct (destroyed_block_is_not_found (after example_ops initial) 50%N
              (DialectContext.mk 7%N 3 [Value 100%N; Value nullptr; Value 102%N]) 1%N)
    as (w' & Hdestroy & _ & _ & _ & Hget).
  - exact example_reachable.
  - reflexivity.
  - done.
  - by exists w'.
Defined.

Lemma CurrentContextCache_get_hit w thread h c :
  h ≠ nullptr → caches w !! thread = Some c →
  CurrentContextCache.m_llvmContext c = h →
  CurrentContextCache_get thread h w
    = Done (CurrentContextCache.m_dialectContext c, w).
Proof.
  intros Hh Hc Hhit. unfold CurrentContextCache_get.
  rewrite bool_decide_eq_true_2 by done. simpl. rewrite Hc. simpl.
  rewrite Hc. simpl. rewrite decide_False; [done|]. by intros ?.
Qed.

(** X10: [CurrentContextCache::get] for a context that is not registered
    returns null and keeps the context with the null block in the cache,
    and [ContextMap::insert] does not touch the caches: after the
    registration of the context the same thread still gets null from its
    cache, not the block. *)
Theorem lookup_before_registration_sticks w thread h b c :
  h ≠ nullptr → caches w !! thread = Some c →
  CurrentContextCache.m_llvmContext c ≠ h → m_map w !! h = None →
  ∃ w1 w2,
    CurrentContextCache_get thread h w = Done (nullptr, w1) ∧
    ContextMap_insert h b w1 = Done w2 ∧
    m_map w2 !! h = Some b ∧
    CurrentContextCache_get thread h w2 = Done (nullptr, w2).
Proof.
  intros Hh Hc Hmiss Habsent.
  assert (Hnull : DenseMap_lookup (m_map w) h = nullptr).
  { unfold DenseMap_lookup. by rewrite Habsent. }
  eexists _, _. split.
  { rewrite (CurrentContextCache_get_miss w thread h c Hh Hc Hmiss).
    by rewrite Hnull. }
  split; [by apply ContextMap_insert_absent|].
  split; [apply lookup_insert_eq|].
  by rewrite (CurrentContextCache_get_hit _ thread h (with_context h nullptr c) Hh
                (lookup_insert_eq _ _ _) eq_refl).
Qed.

Lemma lookup_before_registration_sticks_witness :
  ∃ w1 w2,
    CurrentContextCache_get 1%N 9%N (after example_ops initial) = Done (nullptr, w1) ∧
    ContextMap_insert 9%N 60%N w1 = Done w2 ∧
    m_map w2 !! 9%N = Some 60%N ∧
    CurrentContextCache_get 1%N 9%N w2 = Done (nullptr, w2).
Proof.
  apply (lookup_before_registration_sticks (after example_ops initial) 1%N 9%N 60%N
           (CurrentContextCache.mk 7%N 50%N (AtNext 2%N) nullptr)).
  - done.
  - reflexivity.
  - vm_compute. congruence.
  - reflexivity.
Defined.

(** X11: a block is fixed when it is made: no operation but its own
    destruction changes a live block. *)
Theorem live_block_is_fixed w o w' b blk :
  reachable w → admissible o w → exec o w = Done w' →
  o ≠ Destroy b → blocks w !! b = Some blk →
  blocks w' !! b = Some blk.
Proof.
  intros Hinv%reachable_invariant Hadm Hrun Ho Hb.
  destruct o as [h ds p|this|thread h|thread]; simpl in *.
  - destruct (DialectContext_make h ds p w) as [[r w'']| | |] eqn:Hmake;
      simpl in Hrun; [|done..]. injection Hrun as ->.
    apply DialectContext_make_Done in Hmake as (_ & _ & _ & arr & live & _ & ->).
    simpl. rewrite lookup_insert_ne; [done|]. destruct Hadm as [_ Hfresh]. congruence.
  - unfold destroy in Hrun.
    destruct (blocks w !! this) as [blk'|] eqn:Hthis.
    2: { unfold DialectContext_dtor in Hrun. by rewrite Hthis in Hrun. }
    destruct (DialectContext_dtor_ok w this blk' Hinv Hthis) as (ps & _ & Hdtor).
    rewrite Hdtor in Hrun. simpl in Hrun. injection Hrun as <-.
    unfold operator_delete, torn_down. simpl.
    destruct (delete_all_fields ps
      (set_caches (scrubbed (DialectContext.m_llvmContext blk') <$> caches w)
         (log (Unregistered (DialectContext.m_llvmContext blk') this)
            (set_m_map (delete (DialectContext.m_llvmContext blk') (m_map w)) w))))
      as (_ & _ & _ & -> & _).
    simpl. rewrite lookup_delete_ne; [done|]. congruence.
  - destruct (DialectContext_get thread h w) as [[r w'']| | |] eqn:Hget;
      simpl in Hrun; [|done..]. injection Hrun as ->.
    unfold DialectContext_get in Hget.
    destruct (decide (h = nullptr)) as [->|Hh].
    { unfold CurrentContextCache_get in Hget.
      by rewrite bool_decide_eq_false_2 in Hget by (intros ?; done). }
    destruct (CurrentContextCache_get_ok w thread h Hinv Hadm Hh)
      as (w1 & c' & Hrun & _ & _ & _ & _ & _ & Hbs & _).
    rewrite Hrun in Hget. simpl in Hget. case_decide as Hr; [done|].
    injection Hget as _ <-. by rewrite Hbs.
  - destruct (caches w !! thread) as [c|] eqn:Hc.
    2: { unfold thread_exit in Hrun. rewrite Hc in Hrun. by injection Hrun as <-. }
    destruct (thread_exit_ok w thread c (inv_list _ Hinv) Hc) as [Hrun' _].
    rewrite Hrun' in Hrun. by injection Hrun as <-.
Qed.

Lemma live_block_is_fixed_witness :
  blocks (after (example_ops ++ [Make 9%N example_dialects 60%N]) initial) !! 50%N
  = Some (DialectContext.mk 7%N 3 [Value 100%N; Value nullptr; Value 102%N]).
Proof.
  apply (live_block_is_fixed (after example_ops initial)
           (Make 9%N example_dialects 60%N)).
  - exact example_reachable.
  - split; [done|reflexivity].
  - reflexivity.
  - discriminate.
  - reflexivity.
Defined.

Lemma DialectContext_get_absent this h w r w' a :
  DialectContext_get this h w = Done (r, w') → a ≠ this →
  caches w !! a = None → caches w' !! a = None.
Proof.
  unfold DialectContext_get, CurrentContextCache_get. intros Hrun Ha Hc.
  destruct (assert _); simpl in Hrun; [|done..].
  destruct (match caches w !! this with
            | None => CurrentContextCache_ctor this w
            | Some _ => Done w
            end) as [w1| | |] eqn:Hready; simpl in Hrun; [|done..].
  assert (caches w1 !! a = None) as Hc1.
  { destruct (caches w !! this).
    - by injection Hready as <-.
    - unfold CurrentContextCache_ctor in Hready.
      destruct (decide (m_caches w = nullptr)) as [Hhead|Hhead]; simpl in Hready.
      + injection Hready as <-. simpl. by rewrite lookup_insert_ne.
      + destruct (caches w !! m_caches w) as [cn|] eqn:Hn; simpl in Hready; [|done].
        injection Hready as <-. simpl. rewrite !lookup_insert_ne; [done| |done].
        intros Heq. rewrite Heq in Hn. congruence. }
  destruct (caches w1 !! this) as [c0|]; simpl in Hrun; [|done].
  destruct (decide (CurrentContextCache.m_llvmContext c0 ≠ h)); simpl in Hrun;
    case_decide; try done; injection Hrun as _ <-; simpl.
  - by rewrite lookup_insert_ne.
  - done.
Qed.

(** X12: a lookup changes nothing but caches: the registry, the blocks,
    the objects and the log stay, no cache of another thread appears or
    goes, and the context and the block of every other cache stay. *)
Theorem lookup_touches_only_caches w thread h r w' :
  reachable w → thread ≠ nullptr →
  DialectContext_get thread h w = Done (r, w') →
  m_map w' = m_map w ∧ blocks w' = blocks w ∧
  objects w' = objects w ∧ trace w' = trace w ∧
  (∀ a, a ≠ thread → caches w !! a = None → caches w' !! a = None) ∧
  (∀ a c, a ≠ thread → caches w !! a = Some c →
     ∃ c', caches w' !! a = Some c' ∧
       CurrentContextCache.m_llvmContext c' = CurrentContextCache.m_llvmContext c ∧
       CurrentContextCache.m_dialectContext c' = CurrentContextCache.m_dialectContext c).
Proof.
  intros Hinv%reachable_invariant Hthread Hget.
  assert (Hfields : m_map w' = m_map w ∧ blocks w' = blocks w ∧
                    objects w' = objects w ∧ trace w' = trace w).
  { pose proof Hget as Hget'. unfold DialectContext_get in Hget'.
    destruct (decide (h = nullptr)) as [->|Hh].
    { unfold CurrentContextCache_get in Hget'.
      by rewrite bool_decide_eq_false_2 in Hget' by (intros ?; done). }
    destruct (CurrentContextCache_get_ok w thread h Hinv Hthread Hh)
      as (w1 & c' & Hrun & _ & _ & _ & _ & ? & ? & ? & ? & _).
    rewrite Hrun in Hget'. simpl in Hget'. case_decide; [done|].
    by injection Hget' as _ <-. }
  destruct Hfields as (? & ? & ? & ?). repeat (split; [done|]). split.
  - intros a Ha Hc. by eapply DialectContext_get_absent.
  - intros a c Ha Hc. by eapply DialectContext_get_others.
Qed.

Lemma lookup_touches_only_caches_witness :
  m_map (after (example_ops ++ [Get 3%N 7%N]) initial)
    = m_map (after example_ops initial) ∧
  blocks (after (example_ops ++ [Get 3%N 7%N]) initial)
    = blocks (after example_ops initial).
Proof.
  destruct (lookup_touches_only_caches (after example_ops initial) 3%N 7%N 50%N
              (after (example_ops ++ [Get 3%N 7%N]) initial))
    as (Hm & Hb & _).
  - exact example_reachable.
  - done.
  - reflexivity.
  - by split.
Defined.

(** X16: [make] changes nothing but its own: the new entry of the
    registry, the new block, and the live objects, which are the old
    ones and the objects that the factories return; the caches and all
    other entries and blocks stay. *)
Theorem make_touches_only_its_own w h p (ds : list DialectDescriptor) :
  Forall valid_index ds → p ≠ nullptr → m_map w !! h = None →
  ∃ w', DialectContext_make h ds p w = Done (p, w') ∧
        (∀ q, q ∈ objects w' ↔
              q ∈ objects w ∨ q ≠ nullptr ∧ ∃ d, d ∈ ds ∧ make d h = q) ∧
        m_caches w' = m_caches w ∧ caches w' = caches w ∧ trace w' = trace w ∧
        (∀ h', h' ≠ h → m_map w' !! h' = m_map w !! h') ∧
        (∀ b, b ≠ p → blocks w' !! b = blocks w !! b).
Proof.
  intros Hds Hp Habsent.
  destruct (fill_ok h ds (replicate (Z.to_nat (array_size ds)) (Value nullptr))
              (objects w) (fill_valid ds Hds))
    as (arr & live & Hfill & _ & _ & _ & Hlive).
  exists (made h p (array_size ds) arr live w). split.
  { rewrite DialectContext_make_unfold by done. by rewrite Hfill. }
  split; [done|]. repeat (split; [done|]). simpl. split.
  - intros h' Hh'. by rewrite lookup_insert_ne.
  - intros b Hb. by rewrite lookup_insert_ne.
Qed.

Lemma make_touches_only_its_own_witness :
  ∃ w', DialectContext_make 7%N example_dialects 50%N initial = Done (50%N, w') ∧
        (∀ q, q ∈ objects w' ↔
              q ∈ objects initial ∨
              q ≠ nullptr ∧ ∃ d, d ∈ example_dialects ∧ make d 7%N = q).
Proof.
  destruct (make_touches_only_its_own initial 7%N 50%N example_dialects)
    as (w' & Hmake & Hobj & _).
  - repeat constructor; vm_compute; congruence.
  - done.
  - reflexivity.
  - by exists w'.
Defined.

(** X18: the end of a thread never fails; it takes the cache of the
    thread away and leaves the registry, the blocks and the context and
    the block of every other cache as they are. *)
Theorem thread_exit_removes_only_its_cache w thread :
  reachable w →
  ∃ w', thread_exit thread w = Done w' ∧
        reachable w' ∧
        caches w' !! thread = None ∧
        m_map w' = m_map w ∧ blocks w' = blocks w ∧
        objects w' = objects w ∧ trace w' = trace w ∧
        (∀ a c, a ≠ thread → caches w !! a = Some c →
           ∃ c', caches w' !! a = Some c' ∧
             CurrentContextCache.m_llvmContext c' = CurrentContextCache.m_llvmContext c ∧
             CurrentContextCache.m_dialectContext c'
               = CurrentContextCache.m_dialectContext c).
Proof.
  intros Hreach. pose proof (reachable_invariant _ Hreach) as Hinv.
  destruct (caches w !! thread) as [c|] eqn:Hc.
  2: { exists w. unfold thread_exit. rewrite Hc. repeat (split; [done|]).
       intros a ca _ Hca. by exists ca. }
  destruct (thread_exit_ok w thread c (inv_list _ Hinv) Hc) as [Hrun _].
  eexists. split; [exact Hrun|]. split.
  { by apply (reachable_step w (ThreadExit thread)). }
  simpl. split; [apply lookup_delete_eq|]. repeat (split; [done|]).
  intros a ca Ha Hca. rewrite lookup_unlinked.
  rewrite (decide_False (P := a = thread)) by done.
  rewrite Hca. simpl. eexists. split; [done|]. by repeat case_decide.
Qed.

Lemma thread_exit_removes_only_its_cache_witness :
  ∃ w', thread_exit 2%N (after example_ops initial) = Done w' ∧
        caches w' !! 2%N = None ∧
        m_map w' = m_map (after example_ops initial).
Proof.
  destruct (thread_exit_removes_only_its_cache (after example_ops initial) 2%N
              example_reachable)
    as (w' & Hrun & _ & Hgone & Hm & _).
  by exists w'.
Defined.


End registry_more.

(** ** The index of a destroyed key *)

Section keys_released.
Import Keys.

(** X19: the slot of a live key is below [UINT_MAX], and the destructor
    leaves [UINT_MAX] in the key, which therefore is the slot of no live
    key, and null in the entry of the vector. *)
Theorem destroyed_key_index_is_no_slot (w : KeyWorld) (k : addr) (i : Z) :
  key_reachable w → slot_of w k = Some i →
  0 ≤ i < UINT_MAX ∧
  ∃ w', Key_dtor k w = Done w' ∧
        objs w' !! k = Some {| m_index := UINT_MAX |} ∧
        keys w' !! Z.to_nat i = Some nullptr ∧
        length (keys w') = length (keys w).
Proof.
  intros Hw%key_reachable_ok Hk. unfold slot_of in Hk.
  destruct (objs w !! k) as [key|] eqn:Hkey; [|done].
  simpl in Hk. injection Hk as Hi.
  destruct (keys_back _ Hw k key Hkey) as (_ & n & Hn & Hkn).
  pose proof (lookup_lt_Some _ _ _ Hkn) as Hlt.
  pose proof (keys_bounded _ Hw) as Hb.
  split; [lia|].
  unfold Key_dtor. rewrite Hkey. simpl. rewrite Hn, Nat2Z.id.
  rewrite decide_True by done. eexists. split; [done|]. simpl.
  split; [apply lookup_insert_eq|].
  rewrite <- Hi, Hn, Nat2Z.id.
  split; [by apply list_lookup_insert_eq | apply length_insert].
Qed.

Lemma destroyed_key_index_is_no_slot_witness :
  0 ≤ 2 < UINT_MAX ∧
  ∃ w', Key_dtor 48%N example_keys = Done w' ∧
        objs w' !! 48%N = Some {| m_index := UINT_MAX |} ∧
        keys w' !! Z.to_nat 2 = Some nullptr ∧
        length (keys w') = length (keys example_keys).
Proof.
  apply (destroyed_key_index_is_no_slot example_keys 48%N 2 example_keys_reachable).
  reflexivity.
Defined.

End keys_released.
